(** * Fluid-Sim: the per-frame SPH update of [fluid_sim.py]

    A shallow embedding of the physics core of [fluid_sim.py]
    ([smoothing_function], [smoothing_derivative], [calculate_distance],
    [calculate_pressure], [update] and the frame loop of [main]) together
    with the properties the specification states about it.

    Numbers.  Python's [int] and [float] values are idealised as real
    numbers: rounding, overflow, infinities and NaN are outside this model.
    Where rounding itself decides what the program does, the module
    [Binary64] repeats the pressure and acceleration loops on binary64
    floats.
    What is kept of Python's arithmetic is its partiality: [/] raises
    [ZeroDivisionError] on a zero divisor, indexing a list out of range
    raises [IndexError], and a negative base under a fractional exponent
    yields a complex number, which the first [<] it meets rejects with
    [TypeError].

    Constants.  The module-level constants of the source are the fields of
    a [Config] record, so that the properties can be stated for any
    particle count, gravity, smoothing radius and so on; [source_config]
    holds the values written in the file. *)

From Stdlib Require Import Floats Reals Lra Lia List Arith ZArith.
Import ListNotations.
Local Open Scope R_scope.

(** ** Exceptions and the [result] monad *)

Inductive exception : Type :=
| ZeroDivisionError
| IndexError
| TypeError.

Inductive result (A : Type) : Type :=
| Ok (a : A)
| Raise (e : exception).

Arguments Ok {A} a.
Arguments Raise {A} e.

Definition bind {A B : Type} (r : result A) (k : A -> result B) : result B :=
  match r with
  | Ok a => k a
  | Raise e => Raise e
  end.

Notation "x <- r ;; k" := (bind r (fun x => k))
  (at level 61, r at next level, right associativity).

(** [x / y] on Python numbers. *)
Definition truediv (x y : R) : result R :=
  if Req_dec_T y 0 then Raise ZeroDivisionError else Ok (x / y).

(** [l[i]] for a non-negative index. *)
Definition getitem {A : Type} (l : list A) (i : nat) : result A :=
  match nth_error l i with
  | Some a => Ok a
  | None => Raise IndexError
  end.

(** [l[i] = v], on a list that is not shared. *)
Fixpoint setitem {A : Type} (l : list A) (i : nat) (v : A) : result (list A) :=
  match l, i with
  | [], _ => Raise IndexError
  | _ :: rest, O => Ok (v :: rest)
  | a :: rest, S i' => rest' <- setitem rest i' v ;; Ok (a :: rest')
  end.

(** [for i in idx: s = body(i, s)], stopping at the first exception. *)
Fixpoint for_range {S : Type} (idx : list nat) (body : nat -> S -> result S)
    (s : S) : result S :=
  match idx with
  | [] => Ok s
  | i :: rest => s' <- body i s ;; for_range rest body s'
  end.

(** [[f(i) for i in idx]]. *)
Fixpoint comprehension {A : Type} (idx : list nat) (f : nat -> result A)
    : result (list A) :=
  match idx with
  | [] => Ok []
  | i :: rest => a <- f i ;; l <- comprehension rest f ;; Ok (a :: l)
  end.

(** [range(n)]. *)
Definition range (n : nat) : list nat := seq 0 n.

(** ** Data *)

(** A two-element list [[x, y]]. *)
Definition Vec2 : Type := (R * R)%type.

Record Config : Type := {
  NUM_PARTICLES : nat;
  GRAVITY : R;
  PARTICLE_SIZE : R;
  SMOOTHING_RADIUS : R;
  PRESSURE_FORCE_MULT : R;
  TARGET_PRESSURE : R;
  WALL_MULT : R;
  WIDTH : R;
  HEIGHT : R
}.

(** Lines 6-15 of [fluid_sim.py]. *)
Definition source_config : Config := {|
  NUM_PARTICLES := 70;
  GRAVITY := 1 / 100;
  PARTICLE_SIZE := 5;
  SMOOTHING_RADIUS := 30;
  PRESSURE_FORCE_MULT := 1 / 10;
  TARGET_PRESSURE := 1 / 10;
  WALL_MULT := 7 / 10;
  WIDTH := 400;
  HEIGHT := 400
|}.

(** [m ** (1 / 3)]: the real cube root of a positive base, [0] at [0]; a
    negative base gives a complex number, and the comparison that follows
    in [update] raises [TypeError] on it. *)
Definition pow_third (m : R) : result R :=
  if Rlt_dec 0 m then Ok (Rpower m (1 / 3))
  else if Req_dec_T m 0 then Ok 0
  else Raise TypeError.

Section FluidSim.

Variable cfg : Config.

(** ** The smoothing kernel *)

Definition smoothing_function (distance : R) : result R :=
  q <- truediv (SMOOTHING_RADIUS cfg - distance) (SMOOTHING_RADIUS cfg) ;;
  let value := Rmax 0 q in
  let value := value ^ 3 in
  s <- truediv 2 (SMOOTHING_RADIUS cfg) ;;
  let value := value * s in
  Ok value.

Definition smoothing_derivative (distance : R) : result R :=
  let value := -6 * (SMOOTHING_RADIUS cfg - distance) ^ 2 in
  truediv value (SMOOTHING_RADIUS cfg ^ 4).

Definition calculate_distance (point1 point2 : Vec2) : R :=
  sqrt ((fst point1 - fst point2) ^ 2 + (snd point1 - snd point2) ^ 2).

(** ** The pressure field *)

Definition calculate_pressure (point : Vec2) (positions : list Vec2)
    (masses : list R) : result R :=
  for_range (range (NUM_PARTICLES cfg))
    (fun i pressure =>
       position <- getitem positions i ;;
       let distance := calculate_distance point position in
       k <- smoothing_function distance ;;
       m <- getitem masses i ;;
       Ok (pressure + k * m))
    0.

(** ** One frame *)

(** Lines 56-62: the look-ahead positions. *)
Definition predict (initial_speeds initial_positions : list Vec2)
    : result (list Vec2) :=
  comprehension (range (NUM_PARTICLES cfg))
    (fun i =>
       p <- getitem initial_positions i ;;
       s <- getitem initial_speeds i ;;
       Ok (fst p + fst s, snd p + snd s)).

(** Lines 80-101: the loop over [j] for a fixed [i]. *)
Definition pressure_force_loop (i : nat) (predicted_positions : list Vec2)
    (masses : list R) (pressure : R) : result Vec2 :=
  for_range (range (NUM_PARTICLES cfg))
    (fun j pressure_force =>
       if Nat.eqb i j then Ok pressure_force
       else
         pi <- getitem predicted_positions i ;;
         pj <- getitem predicted_positions j ;;
         let distance := calculate_distance pi pj in
         d <- smoothing_derivative distance ;;
         m <- getitem masses j ;;
         let pressure_gradient := d * m in
         let pressure_difference := TARGET_PRESSURE cfg - pressure in
         ux <- truediv (fst pi - fst pj) distance ;;
         let fx := fst pressure_force
                   + ux * pressure_gradient * pressure_difference
                     * PRESSURE_FORCE_MULT cfg in
         uy <- truediv (snd pi - snd pj) distance ;;
         let fy := snd pressure_force
                   + uy * pressure_gradient * pressure_difference
                     * PRESSURE_FORCE_MULT cfg in
         Ok (fx, fy))
    (0, 0).

(** Lines 68-104: the body of the loop over [i]. *)
Definition acceleration_of (i : nat) (predicted_positions : list Vec2)
    (masses : list R) : result Vec2 :=
  let acceleration := (0, 0) in
  let acceleration := (fst acceleration, snd acceleration + GRAVITY cfg) in
  pi <- getitem predicted_positions i ;;
  pressure <- calculate_pressure pi predicted_positions masses ;;
  pressure_force <- pressure_force_loop i predicted_positions masses pressure ;;
  ax <- truediv (fst pressure_force) pressure ;;
  ay <- truediv (snd pressure_force) pressure ;;
  Ok (fst acceleration + ax, snd acceleration + ay).

(** Lines 54 and 64-107: [accelerations] grows by one entry per particle. *)
Definition accelerate (predicted_positions : list Vec2) (masses : list R)
    : result (list Vec2) :=
  for_range (range (NUM_PARTICLES cfg))
    (fun i accelerations =>
       acceleration <- acceleration_of i predicted_positions masses ;;
       Ok (accelerations ++ [acceleration]))
    [].

(** Lines 126-132 (with [WIDTH]) and 135-141 (with [HEIGHT]): one axis of
    the wall test, on the pair (position, speed) of that axis. *)
Definition bounce (extent display_size position speed : R) : R * R :=
  if Rlt_dec position (0 + display_size) then
    (0 + display_size, speed * - WALL_MULT cfg)
  else if Rgt_dec position (extent - display_size) then
    (extent - display_size, speed * - WALL_MULT cfg)
  else (position, speed).

(** Lines 113-141: the body of the second loop over [i]; the new speed
    and the new position of particle [i]. *)
Definition integrate_one (i : nat)
    (initial_speeds predicted_positions accelerations : list Vec2)
    (masses : list R) : result (Vec2 * Vec2) :=
  s <- getitem initial_speeds i ;;
  a <- getitem accelerations i ;;
  let sx := fst s + fst a in
  let sy := snd s + snd a in
  p <- getitem predicted_positions i ;;
  let px := fst p + sx in
  let py := snd p + sy in
  m <- getitem masses i ;;
  c <- pow_third m ;;
  let display_size := c * PARTICLE_SIZE cfg in
  let '(px, sx) := bounce (WIDTH cfg) display_size px sx in
  let '(py, sy) := bounce (HEIGHT cfg) display_size py sy in
  Ok ((sx, sy), (px, py)).

(** Lines 109-141: both output lists start as [N] zero vectors and are
    filled in place, slot [i] at iteration [i]. *)
Definition integrate
    (initial_speeds predicted_positions accelerations : list Vec2)
    (masses : list R) : result (list Vec2 * list Vec2) :=
  let new_speeds := repeat (0, 0) (NUM_PARTICLES cfg) in
  let new_positions := repeat (0, 0) (NUM_PARTICLES cfg) in
  for_range (range (NUM_PARTICLES cfg))
    (fun i out =>
       sp <- integrate_one i initial_speeds predicted_positions
               accelerations masses ;;
       new_speeds <- setitem (fst out) i (fst sp) ;;
       new_positions <- setitem (snd out) i (snd sp) ;;
       Ok (new_speeds, new_positions))
    (new_speeds, new_positions).

Definition update (initial_speeds initial_positions : list Vec2)
    (masses : list R) : result (list Vec2 * list Vec2) :=
  predicted_positions <- predict initial_speeds initial_positions ;;
  accelerations <- accelerate predicted_positions masses ;;
  integrate initial_speeds predicted_positions accelerations masses.

(** The frame loop of [main], cut after [frames] iterations:
    [speeds, positions = update(speeds, positions, masses)]. *)
Fixpoint run (frames : nat) (speeds positions : list Vec2) (masses : list R)
    : result (list Vec2 * list Vec2) :=
  match frames with
  | O => Ok (speeds, positions)
  | S frames' =>
      sp <- update speeds positions masses ;;
      run frames' (fst sp) (snd sp) masses
  end.

End FluidSim.

(** * The specification's formulas

    The definitions of this part follow the wording of the specification
    (sections 4.1 to 4.4); the theorems below compare them with the
    functions translated from the source above. *)

(** The sum the specification writes as a capital sigma. *)
Fixpoint sum_over (idx : list nat) (f : nat -> R) : R :=
  match idx with
  | [] => 0
  | i :: rest => f i + sum_over rest f
  end.

(** Section 4.1, with [h] the smoothing radius:
    [kernel(d) = (2/h) * max(0, (h - d)/h)^3] and
    [derivative(d) = -6 * (h - d)^2 / h^4]. *)
Definition kernel (cfg : Config) (d : R) : R :=
  2 / SMOOTHING_RADIUS cfg
  * Rmax 0 ((SMOOTHING_RADIUS cfg - d) / SMOOTHING_RADIUS cfg) ^ 3.

Definition derivative (cfg : Config) (d : R) : R :=
  -6 * (SMOOTHING_RADIUS cfg - d) ^ 2 / SMOOTHING_RADIUS cfg ^ 4.

(** Particle [i] of a list of vectors, and of a list of masses. *)
Definition vec_at (l : list Vec2) (i : nat) : Vec2 := nth i l (0, 0).
Definition mass_at (l : list R) (i : nat) : R := nth i l 0.

(** Section 4.2: the sum over all [N] particles of
    [kernel(distance(point, positions[i])) * masses[i]]. *)
Definition pressure_sum (cfg : Config) (point : Vec2) (positions : list Vec2)
    (masses : list R) : R :=
  sum_over (range (NUM_PARTICLES cfg))
    (fun i => kernel cfg (calculate_distance point (vec_at positions i))
              * mass_at masses i).

(** The sum of all masses. *)
Definition total_mass (cfg : Config) (masses : list R) : R :=
  sum_over (range (NUM_PARTICLES cfg)) (mass_at masses).

(** Section 3: predicted position = position + velocity. *)
Definition predicted (cfg : Config) (speeds positions : list Vec2)
    : list Vec2 :=
  map (fun i => (fst (vec_at positions i) + fst (vec_at speeds i),
                 snd (vec_at positions i) + snd (vec_at speeds i)))
      (range (NUM_PARTICLES cfg)).

(** The particles [j <> i]. *)
Definition others (cfg : Config) (i : nat) : list nat :=
  filter (fun j => negb (Nat.eqb i j)) (range (NUM_PARTICLES cfg)).

(** Section 4.3, step 3: the term particle [j] adds to the force on
    particle [i] along one axis ([fst] or [snd]), [P] being the pressure
    estimated at particle [i]. *)
Definition pairwise_term (cfg : Config) (axis : Vec2 -> R)
    (snapshot : list Vec2) (masses : list R) (P : R) (i j : nat) : R :=
  let d := calculate_distance (vec_at snapshot i) (vec_at snapshot j) in
  (axis (vec_at snapshot i) - axis (vec_at snapshot j)) / d
  * derivative cfg d * mass_at masses j
  * (TARGET_PRESSURE cfg - P) * PRESSURE_FORCE_MULT cfg.

Definition force_sum (cfg : Config) (axis : Vec2 -> R)
    (snapshot : list Vec2) (masses : list R) (P : R) (i : nat) : R :=
  sum_over (others cfg i) (pairwise_term cfg axis snapshot masses P i).

(** Section 4.3, steps 1 to 4: (0, G) plus force / pressureAtI. *)
Definition acceleration_spec (cfg : Config) (snapshot : list Vec2)
    (masses : list R) (i : nat) : Vec2 :=
  let P := pressure_sum cfg (vec_at snapshot i) snapshot masses in
  (0 + force_sum cfg fst snapshot masses P i / P,
   GRAVITY cfg + force_sum cfg snd snapshot masses P i / P).

(** Section 4.4: [displayRadius = mass^(1/3) * BaseParticleSize], for a
    positive mass. *)
Definition display_radius (cfg : Config) (m : R) : R :=
  Rpower m (1 / 3) * PARTICLE_SIZE cfg.

(** Section 4.4, boundary resolution along one axis: [x], [v] are the
    position and velocity after integration, [x_out], [v_out] the ones
    returned. *)
Definition wall_resolved (cfg : Config) (extent r x v x_out v_out : R)
    : Prop :=
  (x < r -> x_out = r /\ v_out = v * - WALL_MULT cfg) /\
  (~ x < r -> x > extent - r ->
     x_out = extent - r /\ v_out = v * - WALL_MULT cfg) /\
  (~ x < r -> ~ x > extent - r -> x_out = x /\ v_out = v).

(** The new speed and position of one particle, from its speed [v], its
    predicted position [p], its acceleration [a] and its mass [m]. *)
Definition step_particle (cfg : Config) (v p a : Vec2) (m : R)
    : Vec2 * Vec2 :=
  let sx := fst v + fst a in
  let sy := snd v + snd a in
  let bx := bounce cfg (WIDTH cfg) (display_radius cfg m) (fst p + sx) sx in
  let by_ := bounce cfg (HEIGHT cfg) (display_radius cfg m) (snd p + sy) sy in
  ((snd bx, snd by_), (fst bx, fst by_)).

(** The state one frame later, when nothing raises: every particle
    integrated with the acceleration computed on the predicted positions. *)
Definition next_particle (cfg : Config) (speeds positions : list Vec2)
    (masses : list R) (i : nat) : Vec2 * Vec2 :=
  let snapshot := predicted cfg speeds positions in
  step_particle cfg (vec_at speeds i) (vec_at snapshot i)
    (acceleration_spec cfg snapshot masses i) (mass_at masses i).

Definition next_state (cfg : Config) (speeds positions : list Vec2)
    (masses : list R) : list Vec2 * list Vec2 :=
  (map (fun i => fst (next_particle cfg speeds positions masses i))
       (range (NUM_PARTICLES cfg)),
   map (fun i => snd (next_particle cfg speeds positions masses i))
       (range (NUM_PARTICLES cfg))).

(** The value of a computation that did not raise. *)
Definition value {A : Type} (d : A) (r : result A) : A :=
  match r with
  | Ok a => a
  | Raise _ => d
  end.

(** The constants of the source with another particle count and gravity. *)
Definition with_particles_gravity (n : nat) (g : R) : Config := {|
  NUM_PARTICLES := n;
  GRAVITY := g;
  PARTICLE_SIZE := PARTICLE_SIZE source_config;
  SMOOTHING_RADIUS := SMOOTHING_RADIUS source_config;
  PRESSURE_FORCE_MULT := PRESSURE_FORCE_MULT source_config;
  TARGET_PRESSURE := TARGET_PRESSURE source_config;
  WALL_MULT := WALL_MULT source_config;
  WIDTH := WIDTH source_config;
  HEIGHT := HEIGHT source_config
|}.

(** No particle of the snapshot other than [i] itself sits on particle
    [i]. *)
Definition apart (cfg : Config) (snapshot : list Vec2) (i : nat) : Prop :=
  forall j, (j < NUM_PARTICLES cfg)%nat -> j <> i ->
    calculate_distance (vec_at snapshot i) (vec_at snapshot j) <> 0.

(** A computation that returns, or raises [e] and nothing else. *)
Definition ok_or_raises {A : Type} (e : exception) (r : result A) : Prop :=
  match r with
  | Ok _ => True
  | Raise e' => e' = e
  end.

(** Section 8, the golden scenario: two unit masses at rest, 10 apart. *)
Definition golden_speeds : list Vec2 := [(0, 0); (0, 0)].
Definition golden_positions : list Vec2 := [(0, 0); (10, 0)].
Definition golden_masses : list R := [1; 1].

(** Two unit masses at rest, 40 apart: farther than the smoothing radius
    of the source, 30. *)
Definition far_speeds : list Vec2 := [(0, 0); (0, 0)].
Definition far_positions : list Vec2 := [(100, 100); (140, 100)].
Definition far_masses : list R := [1; 1].

(** The pairwise pressure force [update] computes for particle [i] in the
    frame that starts from (speeds, positions) is zero. *)
Definition no_pressure_force (cfg : Config) (speeds positions : list Vec2)
    (masses : list R) (i : nat) : Prop :=
  forall P,
    calculate_pressure cfg (vec_at (predicted cfg speeds positions) i)
      (predicted cfg speeds positions) masses = Ok P ->
    pressure_force_loop cfg i (predicted cfg speeds positions) masses P
    = Ok (0, 0).

(** A point moved by the vector [d]. *)
Definition translate (d p : Vec2) : Vec2 := (fst p + fst d, snd p + snd d).

(** ** The set-up of [main] (lines 155-169) *)

(** [round(x)] on a float: the nearest integer, a tie going to the even
    one. *)
Definition py_round (x : R) : Z :=
  let f := Int_part x in
  let r := x - IZR f in
  if Rlt_dec r (1 / 2) then f
  else if Rlt_dec (1 / 2) r then (f + 1)%Z
  else if Z.even f then f else (f + 1)%Z.

(** [a % b] and [a // b] on integers. *)
Definition py_mod (a b : Z) : result Z :=
  if Z.eqb b 0 then Raise ZeroDivisionError else Ok (a mod b)%Z.

Definition py_floordiv (a b : Z) : result Z :=
  if Z.eqb b 0 then Raise ZeroDivisionError else Ok (a / b)%Z.

Definition initial_speeds (cfg : Config) : list Vec2 :=
  map (fun _ => (0, 0)) (range (NUM_PARTICLES cfg)).

Definition initial_masses (cfg : Config) : list R :=
  map (fun _ => 1) (range (NUM_PARTICLES cfg)).

Definition GRID_SIZE (cfg : Config) : Z :=
  py_round (sqrt (INR (NUM_PARTICLES cfg))).

Definition GRID_AREA : R := 1 / 2.

Definition initial_positions (cfg : Config) : result (list Vec2) :=
  comprehension (range (NUM_PARTICLES cfg))
    (fun i =>
       column <- py_mod (Z.of_nat i) (GRID_SIZE cfg) ;;
       xq <- truediv (IZR column * WIDTH cfg) (IZR (GRID_SIZE cfg)) ;;
       let x := xq * GRID_AREA + 1 / 2 * (1 - GRID_AREA) * WIDTH cfg in
       row <- py_floordiv (Z.of_nat i) (GRID_SIZE cfg) ;;
       yq <- truediv (IZR row * HEIGHT cfg) (IZR (GRID_SIZE cfg)) ;;
       let y := yq * GRID_AREA + 1 / 2 * (1 - GRID_AREA) * HEIGHT cfg in
       Ok (x, y)).

(** The grid point of particle [i] when the grid has [g] columns. *)
Definition grid_point (cfg : Config) (g : Z) (i : nat) : Vec2 :=
  (IZR (Z.of_nat i mod g) * WIDTH cfg / IZR g * GRID_AREA
   + 1 / 2 * (1 - GRID_AREA) * WIDTH cfg,
   IZR (Z.of_nat i / g) * HEIGHT cfg / IZR g * GRID_AREA
   + 1 / 2 * (1 - GRID_AREA) * HEIGHT cfg).

(** ** The pressure and acceleration loops on binary64 floats

    Over the reals a product of positive numbers is positive; on Python's
    floats it can round to 0.0.  This module repeats lines 18-107 on
    IEEE 754 binary64 numbers, for the inputs on which that rounding
    decides what [update] does.  [+], [-], [*] and [/] are the correctly
    rounded operations of binary64.  [x ** 2], [x ** 3] and [x ** 4]
    are written as products and [x ** (1 / 2)] as the square root: the C
    function behind [**] returns these values whenever they are exact, as
    they are at the arguments 0, 1 and 30 evaluated below. *)

Module Binary64.

Local Open Scope float_scope.

Definition Vec2 : Type := (float * float)%type.

Record Config : Type := {
  NUM_PARTICLES : nat;
  GRAVITY : float;
  SMOOTHING_RADIUS : float;
  PRESSURE_FORCE_MULT : float;
  TARGET_PRESSURE : float
}.

(** [x / y]: Python raises on a divisor equal to zero, of either sign. *)
Definition truediv (x y : float) : result float :=
  if PrimFloat.eqb y 0 then Raise ZeroDivisionError else Ok (x / y).

(** [max((0, q))]: the first of the two unless [q] is greater. *)
Definition max_0 (q : float) : float :=
  if PrimFloat.ltb 0 q then q else 0.

Definition smoothing_function (cfg : Config) (distance : float)
    : result float :=
  q <- truediv (SMOOTHING_RADIUS cfg - distance) (SMOOTHING_RADIUS cfg) ;;
  let value := max_0 q in
  let value := value * value * value in
  s <- truediv 2 (SMOOTHING_RADIUS cfg) ;;
  let value := value * s in
  Ok value.

Definition smoothing_derivative (cfg : Config) (distance : float)
    : result float :=
  let value := -6 * ((SMOOTHING_RADIUS cfg - distance)
                     * (SMOOTHING_RADIUS cfg - distance)) in
  truediv value
    (SMOOTHING_RADIUS cfg * SMOOTHING_RADIUS cfg
     * SMOOTHING_RADIUS cfg * SMOOTHING_RADIUS cfg).

Definition calculate_distance (point1 point2 : Vec2) : float :=
  PrimFloat.sqrt
    ((fst point1 - fst point2) * (fst point1 - fst point2)
     + (snd point1 - snd point2) * (snd point1 - snd point2)).

Definition calculate_pressure (cfg : Config) (point : Vec2)
    (positions : list Vec2) (masses : list float) : result float :=
  for_range (range (NUM_PARTICLES cfg))
    (fun i pressure =>
       position <- getitem positions i ;;
       let distance := calculate_distance point position in
       k <- smoothing_function cfg distance ;;
       m <- getitem masses i ;;
       Ok (pressure + k * m))
    0.

Definition predict (cfg : Config) (initial_speeds initial_positions : list Vec2)
    : result (list Vec2) :=
  comprehension (range (NUM_PARTICLES cfg))
    (fun i =>
       p <- getitem initial_positions i ;;
       s <- getitem initial_speeds i ;;
       Ok (fst p + fst s, snd p + snd s)).

Definition pressure_force_loop (cfg : Config) (i : nat)
    (predicted_positions : list Vec2) (masses : list float)
    (pressure : float) : result Vec2 :=
  for_range (range (NUM_PARTICLES cfg))
    (fun j pressure_force =>
       if Nat.eqb i j then Ok pressure_force
       else
         pi <- getitem predicted_positions i ;;
         pj <- getitem predicted_positions j ;;
         let distance := calculate_distance pi pj in
         d <- smoothing_derivative cfg distance ;;
         m <- getitem masses j ;;
         let pressure_gradient := d * m in
         let pressure_difference := TARGET_PRESSURE cfg - pressure in
         ux <- truediv (fst pi - fst pj) distance ;;
         let fx := fst pressure_force
                   + ux * pressure_gradient * pressure_difference
                     * PRESSURE_FORCE_MULT cfg in
         uy <- truediv (snd pi - snd pj) distance ;;
         let fy := snd pressure_force
                   + uy * pressure_gradient * pressure_difference
                     * PRESSURE_FORCE_MULT cfg in
         Ok (fx, fy))
    (0, 0).

Definition acceleration_of (cfg : Config) (i : nat)
    (predicted_positions : list Vec2) (masses : list float) : result Vec2 :=
  let acceleration := (0, 0) in
  let acceleration := (fst acceleration, snd acceleration + GRAVITY cfg) in
  pi <- getitem predicted_positions i ;;
  pressure <- calculate_pressure cfg pi predicted_positions masses ;;
  pressure_force <-
    pressure_force_loop cfg i predicted_positions masses pressure ;;
  ax <- truediv (fst pressure_force) pressure ;;
  ay <- truediv (snd pressure_force) pressure ;;
  Ok (fst acceleration + ax, snd acceleration + ay).

Definition accelerate (cfg : Config) (predicted_positions : list Vec2)
    (masses : list float) : result (list Vec2) :=
  for_range (range (NUM_PARTICLES cfg))
    (fun i accelerations =>
       acceleration <- acceleration_of cfg i predicted_positions masses ;;
       Ok (accelerations ++ [acceleration]))
    [].

(** One particle; the other constants as in the source (0.01 and 0.1
    are the binary64 numbers nearest to them). *)
Definition one_particle_config : Config := {|
  NUM_PARTICLES := 1;
  GRAVITY := 0x1.47ae147ae147bp-7;
  SMOOTHING_RADIUS := 30;
  PRESSURE_FORCE_MULT := 0x1.999999999999ap-4;
  TARGET_PRESSURE := 0x1.999999999999ap-4
|}.

(** [5e-324], the smallest positive float. *)
Definition smallest_mass : float := 0x1p-1074.

End Binary64.

(** * Properties *)

(** ** The [result] monad and the loop combinators *)

Lemma truediv_ok (x y : R) : y <> 0 -> truediv x y = Ok (x / y).
Proof.
  intros Hy. unfold truediv. destruct (Req_dec_T y 0) as [E | _].
  - contradiction.
  - reflexivity.
Qed.

Lemma truediv_zero (x : R) : truediv x 0 = Raise ZeroDivisionError.
Proof.
  unfold truediv. destruct (Req_dec_T 0 0) as [_ | N].
  - reflexivity.
  - exfalso. apply N. reflexivity.
Qed.

Lemma getitem_nth {A : Type} (l : list A) (i : nat) (d : A) :
  (i < length l)%nat -> getitem l i = Ok (nth i l d).
Proof.
  intros Hi. unfold getitem.
  rewrite (nth_error_nth' l d Hi). reflexivity.
Qed.

Lemma setitem_app {A : Type} (done rest : list A) (old v : A) :
  setitem (done ++ old :: rest) (length done) v = Ok (done ++ v :: rest).
Proof.
  induction done as [| a done IH]; simpl.
  - reflexivity.
  - rewrite IH. reflexivity.
Qed.

(** A loop that adds [f i] to its accumulator computes a sum. *)
Lemma for_range_sum (idx : list nat) (body : nat -> R -> result R)
    (f : nat -> R) :
  (forall i s, In i idx -> body i s = Ok (s + f i)) ->
  forall s, for_range idx body s = Ok (s + sum_over idx f).
Proof.
  induction idx as [| i rest IH]; intros Hbody s; simpl.
  - f_equal. lra.
  - rewrite Hbody by (left; reflexivity). simpl.
    rewrite IH by (intros; apply Hbody; right; assumption).
    f_equal. lra.
Qed.

(** The same for a loop over pairs that skips the indices [skip] holds of. *)
Lemma for_range_sum2 (idx : list nat) (body : nat -> Vec2 -> result Vec2)
    (skip : nat -> bool) (f g : nat -> R) :
  (forall i s, In i idx -> skip i = true -> body i s = Ok s) ->
  (forall i s, In i idx -> skip i = false ->
     body i s = Ok (fst s + f i, snd s + g i)) ->
  forall s,
    for_range idx body s =
    Ok (fst s + sum_over (filter (fun i => negb (skip i)) idx) f,
        snd s + sum_over (filter (fun i => negb (skip i)) idx) g).
Proof.
  induction idx as [| i rest IH]; intros Hskip Hadd s; simpl.
  - destruct s as [a b]; simpl. f_equal. f_equal; lra.
  - assert (Hskip' : forall j s0, In j rest -> skip j = true ->
                                   body j s0 = Ok s0)
      by (intros; apply Hskip; [right |]; assumption).
    assert (Hadd' : forall j s0, In j rest -> skip j = false ->
                                  body j s0 = Ok (fst s0 + f j, snd s0 + g j))
      by (intros; apply Hadd; [right |]; assumption).
    destruct (skip i) eqn:E; simpl.
    + rewrite Hskip; [| left; reflexivity | assumption]. simpl.
      apply IH; assumption.
    + rewrite Hadd; [| left; reflexivity | assumption]. simpl.
      rewrite IH by assumption.
      simpl. f_equal. f_equal; lra.
Qed.

(** A loop that appends [f i] builds the list of the [f i]. *)
Lemma for_range_append {A : Type} (idx : list nat)
    (body : nat -> list A -> result (list A)) (f : nat -> A) :
  (forall i l, In i idx -> body i l = Ok (l ++ [f i])) ->
  forall l, for_range idx body l = Ok (l ++ map f idx).
Proof.
  induction idx as [| i rest IH]; intros Hbody l; simpl.
  - rewrite app_nil_r. reflexivity.
  - rewrite Hbody by (left; reflexivity). simpl.
    rewrite IH by (intros; apply Hbody; right; assumption).
    rewrite <- app_assoc. reflexivity.
Qed.

Lemma comprehension_map {A : Type} (idx : list nat) (f : nat -> result A)
    (g : nat -> A) :
  (forall i, In i idx -> f i = Ok (g i)) ->
  comprehension idx f = Ok (map g idx).
Proof.
  induction idx as [| i rest IH]; intros Hf; simpl.
  - reflexivity.
  - rewrite Hf by (left; reflexivity). simpl.
    rewrite IH by (intros; apply Hf; right; assumption).
    reflexivity.
Qed.

(** A loop that writes slot [i] of two lists at iteration [i] fills them
    with the values written. *)
Lemma for_range_fill {A B : Type} (za : A) (zb : B)
    (body : nat -> list A * list B -> result (list A * list B))
    (g : nat -> A * B) (n : nat) :
  forall (k : nat) (da : list A) (db : list B),
    length da = k -> length db = k ->
    (forall i out, (k <= i < k + n)%nat ->
       body i out =
       (sp <- Ok (g i) ;;
        la <- setitem (fst out) i (fst sp) ;;
        lb <- setitem (snd out) i (snd sp) ;;
        Ok (la, lb))) ->
    for_range (seq k n) body (da ++ repeat za n, db ++ repeat zb n) =
    Ok (da ++ map (fun i => fst (g i)) (seq k n),
        db ++ map (fun i => snd (g i)) (seq k n)).
Proof.
  induction n as [| n IH]; intros k da db Ha Hb Hbody; simpl.
  - reflexivity.
  - rewrite Hbody by lia. simpl.
    rewrite <- Ha at 1. rewrite setitem_app. simpl.
    rewrite <- Hb at 1. rewrite setitem_app. simpl.
    replace (da ++ fst (g k) :: repeat za n)
      with ((da ++ [fst (g k)]) ++ repeat za n)
      by (rewrite <- app_assoc; reflexivity).
    replace (db ++ snd (g k) :: repeat zb n)
      with ((db ++ [snd (g k)]) ++ repeat zb n)
      by (rewrite <- app_assoc; reflexivity).
    rewrite IH.
    + rewrite <- !app_assoc. reflexivity.
    + rewrite length_app. simpl. lia.
    + rewrite length_app. simpl. lia.
    + intros i out Hi. apply Hbody. lia.
Qed.

(** ** The smoothing kernel (section 4.1) *)

Section Kernel.

Variable cfg : Config.
Local Abbreviation h := (SMOOTHING_RADIUS cfg).

Lemma smoothing_function_kernel (d : R) :
  h <> 0 -> smoothing_function cfg d = Ok (kernel cfg d).
Proof.
  intros Hh. unfold smoothing_function, kernel. fold h.
  rewrite !truediv_ok by assumption. simpl bind.
  f_equal. ring.
Qed.

Lemma smoothing_function_zero_radius (d : R) :
  h = 0 -> smoothing_function cfg d = Raise ZeroDivisionError.
Proof.
  intros Hh. unfold smoothing_function. fold h. rewrite Hh.
  rewrite truediv_zero. reflexivity.
Qed.

Lemma smoothing_derivative_eq (d : R) :
  h <> 0 -> smoothing_derivative cfg d = Ok (derivative cfg d).
Proof.
  intros Hh. unfold smoothing_derivative, derivative. fold h.
  apply truediv_ok. apply pow_nonzero. assumption.
Qed.

Lemma smoothing_derivative_zero_radius (d : R) :
  h = 0 -> smoothing_derivative cfg d = Raise ZeroDivisionError.
Proof.
  intros Hh. unfold smoothing_derivative. fold h. rewrite Hh.
  replace (0 ^ 4) with 0 by ring. apply truediv_zero.
Qed.

Hypothesis radius_pos : 0 < h.

Lemma ratio_inside (d : R) : d < h -> 0 < (h - d) / h.
Proof. intros Hd. apply Rdiv_lt_0_compat; lra. Qed.

Lemma ratio_outside (d : R) : h <= d -> (h - d) / h <= 0.
Proof.
  intros Hd. unfold Rdiv.
  assert (0 < / h) by (apply Rinv_0_lt_compat; assumption).
  nra.
Qed.

Lemma kernel_inside (d : R) :
  d < h -> kernel cfg d = 2 / h * ((h - d) / h) ^ 3.
Proof.
  intros Hd. unfold kernel. fold h.
  rewrite Rmax_right by (left; apply ratio_inside; assumption).
  reflexivity.
Qed.

Lemma kernel_outside (d : R) : h <= d -> kernel cfg d = 0.
Proof.
  intros Hd. unfold kernel. fold h.
  rewrite Rmax_left by (apply ratio_outside; assumption).
  ring.
Qed.

Lemma kernel_nonneg (d : R) : 0 <= kernel cfg d.
Proof.
  unfold kernel. fold h.
  apply Rmult_le_pos.
  - left. apply Rdiv_lt_0_compat; lra.
  - apply pow_le. apply Rmax_l.
Qed.

Lemma kernel_at_zero : kernel cfg 0 = 2 / h.
Proof.
  rewrite kernel_inside by assumption.
  replace ((h - 0) / h) with 1 by (field; lra).
  ring.
Qed.

Lemma cube_lt (a b : R) : 0 <= a -> a < b -> a ^ 3 < b ^ 3.
Proof.
  intros Ha Hab. simpl.
  assert (0 < b) by lra.
  assert (a * a <= b * b) by nra.
  assert (0 < b * b) by nra.
  nra.
Qed.

Lemma kernel_decreasing (d1 d2 : R) :
  d1 < d2 -> d2 < h -> kernel cfg d2 < kernel cfg d1.
Proof.
  intros H12 H2.
  rewrite !kernel_inside by lra.
  apply Rmult_lt_compat_l.
  - apply Rdiv_lt_0_compat; lra.
  - apply cube_lt.
    + left. apply ratio_inside. assumption.
    + unfold Rdiv. apply Rmult_lt_compat_r.
      * apply Rinv_0_lt_compat. assumption.
      * lra.
Qed.

Lemma kernel_le_at_zero (d : R) : 0 <= d -> kernel cfg d <= kernel cfg 0.
Proof.
  intros Hd.
  destruct (Rle_lt_dec h d) as [Hout | Hin].
  - rewrite kernel_outside by assumption. apply kernel_nonneg.
  - destruct Hd as [Hpos | <-].
    + left. apply kernel_decreasing; assumption.
    + right. reflexivity.
Qed.

Lemma derivative_negative (d : R) : d <> h -> derivative cfg d < 0.
Proof.
  intros Hd. unfold derivative. fold h.
  assert (Hsq : 0 < (h - d) ^ 2)
    by (assert (h - d <> 0) by lra; simpl; nra).
  assert (Hq : 0 < h ^ 4) by (apply pow_lt; assumption).
  unfold Rdiv.
  assert (0 < / h ^ 4) by (apply Rinv_0_lt_compat; assumption).
  nra.
Qed.

End Kernel.

(** ** Sums *)

Lemma sum_over_ext (idx : list nat) (f g : nat -> R) :
  (forall i, In i idx -> f i = g i) -> sum_over idx f = sum_over idx g.
Proof.
  induction idx as [| i rest IH]; intros Hfg; simpl.
  - reflexivity.
  - rewrite Hfg by (left; reflexivity).
    rewrite IH by (intros; apply Hfg; right; assumption).
    reflexivity.
Qed.

Lemma sum_over_scale (idx : list nat) (c : R) (f : nat -> R) :
  sum_over idx (fun i => c * f i) = c * sum_over idx f.
Proof.
  induction idx as [| i rest IH]; simpl.
  - ring.
  - rewrite IH. ring.
Qed.

Lemma sum_over_nonneg (idx : list nat) (f : nat -> R) :
  (forall i, In i idx -> 0 <= f i) -> 0 <= sum_over idx f.
Proof.
  induction idx as [| i rest IH]; intros Hf; simpl.
  - lra.
  - assert (0 <= f i) by (apply Hf; left; reflexivity).
    assert (0 <= sum_over rest f)
      by (apply IH; intros; apply Hf; right; assumption).
    lra.
Qed.

Lemma sum_over_ge_term (idx : list nat) (f : nat -> R) (i : nat) :
  (forall j, In j idx -> 0 <= f j) -> In i idx -> f i <= sum_over idx f.
Proof.
  induction idx as [| j rest IH]; intros Hf Hi; simpl.
  - destruct Hi.
  - assert (Hrest : 0 <= sum_over rest f)
      by (apply sum_over_nonneg; intros; apply Hf; right; assumption).
    assert (Hj : 0 <= f j) by (apply Hf; left; reflexivity).
    destruct Hi as [-> | Hi].
    + lra.
    + assert (f i <= sum_over rest f)
        by (apply IH; [intros; apply Hf; right |]; assumption).
      lra.
Qed.

Lemma in_range (n i : nat) : In i (range n) <-> (i < n)%nat.
Proof. unfold range. rewrite in_seq. lia. Qed.

(** ** The pressure field (section 4.2) *)

Lemma calculate_distance_self (p : Vec2) : calculate_distance p p = 0.
Proof.
  unfold calculate_distance.
  replace ((fst p - fst p) ^ 2 + (snd p - snd p) ^ 2) with 0 by ring.
  apply sqrt_0.
Qed.

Lemma calculate_distance_nonneg (p q : Vec2) : 0 <= calculate_distance p q.
Proof. unfold calculate_distance. apply sqrt_pos. Qed.

Section Pressure.

Variable cfg : Config.
Local Abbreviation h := (SMOOTHING_RADIUS cfg).
Local Abbreviation N := (NUM_PARTICLES cfg).

Variables (positions : list Vec2) (masses : list R).
Hypothesis positions_long : (N <= length positions)%nat.
Hypothesis masses_long : (N <= length masses)%nat.

Lemma calculate_pressure_sum (point : Vec2) :
  h <> 0 ->
  calculate_pressure cfg point positions masses =
  Ok (pressure_sum cfg point positions masses).
Proof.
  intros Hh. unfold calculate_pressure, pressure_sum.
  rewrite for_range_sum with
    (f := fun i => kernel cfg (calculate_distance point (vec_at positions i))
                   * mass_at masses i).
  - f_equal. ring.
  - intros i s Hi. apply in_range in Hi. fold N in Hi.
    rewrite (getitem_nth positions i (0, 0)) by lia. simpl bind.
    rewrite smoothing_function_kernel by assumption. simpl bind.
    rewrite (getitem_nth masses i 0) by lia. simpl bind.
    reflexivity.
Qed.

Lemma pressure_sum_coincident (point : Vec2) :
  (forall i, (i < N)%nat -> vec_at positions i = point) ->
  pressure_sum cfg point positions masses =
  kernel cfg 0 * total_mass cfg masses.
Proof.
  intros Hsame. unfold pressure_sum, total_mass.
  rewrite <- sum_over_scale. apply sum_over_ext.
  intros i Hi. apply in_range in Hi.
  rewrite Hsame by assumption.
  rewrite calculate_distance_self. reflexivity.
Qed.

Hypothesis radius_pos : 0 < h.
Hypothesis masses_pos : forall j, (j < N)%nat -> 0 < mass_at masses j.

Lemma pressure_sum_lower_bound (i : nat) :
  (i < N)%nat ->
  2 / h * mass_at masses i
  <= pressure_sum cfg (vec_at positions i) positions masses.
Proof.
  intros Hi. unfold pressure_sum.
  pose (f := fun j =>
          kernel cfg (calculate_distance (vec_at positions i)
                        (vec_at positions j)) * mass_at masses j).
  assert (Hself : f i = 2 / h * mass_at masses i).
  { unfold f. rewrite calculate_distance_self.
    rewrite kernel_at_zero by assumption. reflexivity. }
  rewrite <- Hself. apply (sum_over_ge_term _ f).
  - intros j Hj. apply in_range in Hj. unfold f.
    apply Rmult_le_pos.
    + apply kernel_nonneg. assumption.
    + left. apply masses_pos. assumption.
  - apply in_range. assumption.
Qed.

Lemma self_term_pos (i : nat) : (i < N)%nat -> 0 < 2 / h * mass_at masses i.
Proof.
  intros Hi. apply Rmult_lt_0_compat.
  - apply Rdiv_lt_0_compat; lra.
  - apply masses_pos. assumption.
Qed.

Lemma pressure_sum_pos (i : nat) :
  (i < N)%nat ->
  0 < pressure_sum cfg (vec_at positions i) positions masses.
Proof.
  intros Hi.
  apply Rlt_le_trans with (2 / h * mass_at masses i).
  - apply self_term_pos. assumption.
  - apply pressure_sum_lower_bound. assumption.
Qed.

End Pressure.

(** ** Predicted positions and accelerations (section 4.3) *)

Lemma nth_map_range {A : Type} (f : nat -> A) (n i : nat) (d : A) :
  (i < n)%nat -> nth i (map f (range n)) d = f i.
Proof.
  intros Hi. unfold range.
  rewrite nth_indep with (d' := f 0%nat)
    by (rewrite length_map, length_seq; assumption).
  rewrite map_nth. rewrite seq_nth by assumption. reflexivity.
Qed.

Lemma length_map_range {A : Type} (f : nat -> A) (n : nat) :
  length (map f (range n)) = n.
Proof. unfold range. rewrite length_map, length_seq. reflexivity. Qed.

Section Acceleration.

Variable cfg : Config.
Local Abbreviation h := (SMOOTHING_RADIUS cfg).
Local Abbreviation N := (NUM_PARTICLES cfg).

Lemma predict_eq (speeds positions : list Vec2) :
  (N <= length speeds)%nat -> (N <= length positions)%nat ->
  predict cfg speeds positions = Ok (predicted cfg speeds positions).
Proof.
  intros Hs Hp. unfold predict, predicted.
  apply comprehension_map. intros i Hi. apply in_range in Hi. fold N in Hi.
  rewrite (getitem_nth positions i (0, 0)) by lia. simpl bind.
  rewrite (getitem_nth speeds i (0, 0)) by lia. simpl bind.
  reflexivity.
Qed.

Lemma length_predicted (speeds positions : list Vec2) :
  length (predicted cfg speeds positions) = N.
Proof. unfold predicted. apply length_map_range. Qed.

Variables (snapshot : list Vec2) (masses : list R).
Hypothesis snapshot_long : (N <= length snapshot)%nat.
Hypothesis masses_long : (N <= length masses)%nat.
Hypothesis radius_nonzero : h <> 0.

Lemma pressure_force_loop_sum (i : nat) (P : R) :
  (i < N)%nat -> apart cfg snapshot i ->
  pressure_force_loop cfg i snapshot masses P =
  Ok (force_sum cfg fst snapshot masses P i,
      force_sum cfg snd snapshot masses P i).
Proof.
  intros Hi Hapart. unfold pressure_force_loop, force_sum, others.
  rewrite for_range_sum2 with
    (skip := Nat.eqb i)
    (f := pairwise_term cfg fst snapshot masses P i)
    (g := pairwise_term cfg snd snapshot masses P i).
  - simpl fst. simpl snd. apply f_equal. apply f_equal2; ring.
  - intros j s _ E. rewrite E. reflexivity.
  - intros j s Hj E. rewrite E. apply in_range in Hj. fold N in Hj.
    apply Nat.eqb_neq in E.
    rewrite (getitem_nth snapshot i (0, 0)) by lia. simpl bind.
    rewrite (getitem_nth snapshot j (0, 0)) by lia. simpl bind.
    rewrite smoothing_derivative_eq by assumption. simpl bind.
    rewrite (getitem_nth masses j 0) by lia. simpl bind.
    assert (Hd : calculate_distance (vec_at snapshot i) (vec_at snapshot j)
                 <> 0) by (apply Hapart; [assumption | congruence]).
    fold (vec_at snapshot i). fold (vec_at snapshot j). fold (mass_at masses j).
    rewrite !truediv_ok by assumption. simpl bind.
    unfold pairwise_term. apply f_equal. apply f_equal2; ring.
Qed.

Lemma acceleration_of_spec (i : nat) :
  (i < N)%nat -> apart cfg snapshot i ->
  pressure_sum cfg (vec_at snapshot i) snapshot masses <> 0 ->
  acceleration_of cfg i snapshot masses =
  Ok (acceleration_spec cfg snapshot masses i).
Proof.
  intros Hi Hapart HP. unfold acceleration_of, acceleration_spec.
  rewrite (getitem_nth snapshot i (0, 0)) by (fold N; lia). simpl bind.
  fold (vec_at snapshot i).
  rewrite calculate_pressure_sum by assumption. simpl bind.
  rewrite pressure_force_loop_sum by assumption. simpl bind.
  rewrite !truediv_ok by assumption. simpl.
  apply f_equal. apply f_equal2; ring.
Qed.

Lemma accelerate_spec :
  (forall i, (i < N)%nat -> apart cfg snapshot i) ->
  (forall i, (i < N)%nat ->
     pressure_sum cfg (vec_at snapshot i) snapshot masses <> 0) ->
  accelerate cfg snapshot masses =
  Ok (map (acceleration_spec cfg snapshot masses) (range N)).
Proof.
  intros Hapart HP. unfold accelerate.
  rewrite for_range_append with (f := acceleration_spec cfg snapshot masses).
  - reflexivity.
  - intros i l Hi. apply in_range in Hi.
    rewrite acceleration_of_spec by auto. reflexivity.
Qed.

End Acceleration.

(** ** Integration and walls (section 4.4) *)

Lemma pow_third_pos (m : R) : 0 < m -> pow_third m = Ok (Rpower m (1 / 3)).
Proof.
  intros Hm. unfold pow_third. destruct (Rlt_dec 0 m) as [_ | N].
  - reflexivity.
  - contradiction.
Qed.

Lemma bounce_resolved (cfg : Config) (extent r x v : R) :
  wall_resolved cfg extent r x v
    (fst (bounce cfg extent r x v)) (snd (bounce cfg extent r x v)).
Proof.
  unfold wall_resolved, bounce.
  replace (0 + r) with r by ring.
  destruct (Rlt_dec x r) as [Hlow | Hlow].
  - simpl. repeat split; intros; try contradiction; reflexivity.
  - destruct (Rgt_dec x (extent - r)) as [Hhigh | Hhigh]; simpl;
      repeat split; intros; try contradiction; reflexivity.
Qed.

Lemma bounce_inside (cfg : Config) (extent r x v : R) :
  r <= x -> x <= extent - r -> bounce cfg extent r x v = (x, v).
Proof.
  intros Hlow Hhigh. unfold bounce.
  destruct (Rlt_dec x (0 + r)) as [C | _]; [lra |].
  destruct (Rgt_dec x (extent - r)) as [C | _]; [lra |].
  reflexivity.
Qed.

Section Integration.

Variable cfg : Config.
Local Abbreviation N := (NUM_PARTICLES cfg).

Variables (speeds snapshot accelerations : list Vec2) (masses : list R).

Lemma integrate_one_eq (i : nat) :
  (i < length speeds)%nat -> (i < length snapshot)%nat ->
  (i < length accelerations)%nat -> (i < length masses)%nat ->
  0 < mass_at masses i ->
  integrate_one cfg i speeds snapshot accelerations masses =
  Ok (step_particle cfg (vec_at speeds i) (vec_at snapshot i)
        (vec_at accelerations i) (mass_at masses i)).
Proof.
  intros Hs Hp Ha Hm Hpos. unfold integrate_one, step_particle.
  rewrite (getitem_nth speeds i (0, 0)) by assumption. simpl bind.
  rewrite (getitem_nth accelerations i (0, 0)) by assumption. simpl bind.
  rewrite (getitem_nth snapshot i (0, 0)) by assumption. simpl bind.
  rewrite (getitem_nth masses i 0) by assumption. simpl bind.
  rewrite pow_third_pos by assumption. simpl bind.
  fold (vec_at speeds i) (vec_at snapshot i) (vec_at accelerations i)
       (mass_at masses i).
  fold (display_radius cfg (mass_at masses i)).
  destruct (bounce cfg (WIDTH cfg) _ _ _) as [px sx].
  destruct (bounce cfg (HEIGHT cfg) _ _ _) as [py sy].
  reflexivity.
Qed.

Lemma integrate_fill (g : nat -> Vec2 * Vec2) :
  (forall i, (i < N)%nat ->
     integrate_one cfg i speeds snapshot accelerations masses = Ok (g i)) ->
  integrate cfg speeds snapshot accelerations masses =
  Ok (map (fun i => fst (g i)) (range N), map (fun i => snd (g i)) (range N)).
Proof.
  intros Hg. unfold integrate, range. fold N.
  apply (for_range_fill (0, 0) (0, 0) _ g N 0 [] []); try reflexivity.
  intros i out Hi. rewrite Hg by lia. reflexivity.
Qed.

End Integration.

(** ** One frame, when nothing raises *)

Section Frame.

Variable cfg : Config.
Local Abbreviation h := (SMOOTHING_RADIUS cfg).
Local Abbreviation N := (NUM_PARTICLES cfg).

Variables (speeds positions : list Vec2) (masses : list R).
Hypothesis speeds_long : (N <= length speeds)%nat.
Hypothesis positions_long : (N <= length positions)%nat.
Hypothesis masses_long : (N <= length masses)%nat.
Hypothesis radius_pos : 0 < h.
Hypothesis masses_pos : forall j, (j < N)%nat -> 0 < mass_at masses j.
Hypothesis all_apart :
  forall i, (i < N)%nat -> apart cfg (predicted cfg speeds positions) i.

Lemma accelerate_predicted :
  accelerate cfg (predicted cfg speeds positions) masses =
  Ok (map (acceleration_spec cfg (predicted cfg speeds positions) masses)
        (range N)).
Proof.
  apply accelerate_spec.
  - rewrite length_predicted. apply Nat.le_refl.
  - assumption.
  - fold h. lra.
  - assumption.
  - intros i Hi. apply Rgt_not_eq. apply Rlt_gt.
    apply pressure_sum_pos; assumption.
Qed.

Lemma update_eq :
  update cfg speeds positions masses =
  Ok (next_state cfg speeds positions masses).
Proof.
  unfold update.
  rewrite predict_eq by assumption. simpl bind.
  rewrite accelerate_predicted. simpl bind.
  rewrite integrate_fill with
    (g := next_particle cfg speeds positions masses).
  - reflexivity.
  - intros i Hi. fold N in Hi.
    rewrite integrate_one_eq.
    + unfold next_particle. unfold vec_at at 3.
      rewrite nth_map_range by assumption. reflexivity.
    + lia.
    + rewrite length_predicted. assumption.
    + rewrite length_map_range. assumption.
    + lia.
    + apply masses_pos. assumption.
Qed.

End Frame.

(** * The claims about the kernel and the pressure field *)

(** C3.  For every distance [d >= 0], [smoothing_derivative] returns
    [-6 * (h - d)^2 / h^4], [h] being the smoothing radius: one formula
    for all distances, with no cut at [d = h].  Beyond the radius the
    value is strictly negative, hence not zero, although
    [smoothing_function] returns 0 there. *)
Theorem smoothing_derivative_untruncated (cfg : Config) (d : R) :
  0 < SMOOTHING_RADIUS cfg ->
  0 <= d ->
  smoothing_derivative cfg d =
    Ok (-6 * (SMOOTHING_RADIUS cfg - d) ^ 2 / SMOOTHING_RADIUS cfg ^ 4)
  /\ (SMOOTHING_RADIUS cfg < d ->
      -6 * (SMOOTHING_RADIUS cfg - d) ^ 2 / SMOOTHING_RADIUS cfg ^ 4 < 0
      /\ smoothing_function cfg d = Ok 0).
Proof.
  intros Hh Hd. split.
  - rewrite smoothing_derivative_eq by lra. reflexivity.
  - intros Hfar. split.
    + apply (derivative_negative cfg); [assumption | lra].
    + rewrite smoothing_function_kernel by lra.
      rewrite kernel_outside by lra. reflexivity.
Qed.

Lemma smoothing_derivative_untruncated_witness :
  0 < SMOOTHING_RADIUS source_config /\ 0 <= 40 /\
  smoothing_derivative source_config 40 =
    Ok (-6 * (SMOOTHING_RADIUS source_config - 40) ^ 2
        / SMOOTHING_RADIUS source_config ^ 4).
Proof.
  assert (Hh : 0 < SMOOTHING_RADIUS source_config) by (simpl; lra).
  assert (Hd : 0 <= 40) by lra.
  split; [exact Hh | split; [exact Hd |]].
  exact (proj1 (smoothing_derivative_untruncated source_config 40 Hh Hd)).
Defined.

(** C6.  With a positive smoothing radius [h], [smoothing_function]
    returns 0 for every [d >= h], is strictly decreasing on [0, h), and
    returns [2 / h] at 0, which no value at a distance [d >= 0] exceeds. *)
Theorem kernel_shape (cfg : Config) :
  0 < SMOOTHING_RADIUS cfg ->
  (forall d, SMOOTHING_RADIUS cfg <= d -> smoothing_function cfg d = Ok 0)
  /\ (forall d1 d2, 0 <= d1 -> d1 < d2 -> d2 < SMOOTHING_RADIUS cfg ->
        exists k1 k2,
          smoothing_function cfg d1 = Ok k1
          /\ smoothing_function cfg d2 = Ok k2
          /\ k2 < k1)
  /\ smoothing_function cfg 0 = Ok (2 / SMOOTHING_RADIUS cfg)
  /\ (forall d, 0 <= d ->
        exists k, smoothing_function cfg d = Ok k
                  /\ k <= 2 / SMOOTHING_RADIUS cfg).
Proof.
  intros Hh.
  assert (Hnz : SMOOTHING_RADIUS cfg <> 0) by lra.
  repeat split.
  - intros d Hd. rewrite smoothing_function_kernel by assumption.
    rewrite kernel_outside by assumption. reflexivity.
  - intros d1 d2 _ H12 H2.
    exists (kernel cfg d1), (kernel cfg d2).
    rewrite !smoothing_function_kernel by assumption.
    repeat split. apply kernel_decreasing; assumption.
  - rewrite smoothing_function_kernel by assumption.
    rewrite kernel_at_zero by assumption. reflexivity.
  - intros d Hd. exists (kernel cfg d).
    rewrite smoothing_function_kernel by assumption.
    split; [reflexivity |].
    rewrite <- (kernel_at_zero cfg) by assumption.
    apply kernel_le_at_zero; assumption.
Qed.

Lemma kernel_shape_witness :
  0 < SMOOTHING_RADIUS source_config /\
  smoothing_function source_config 0 = Ok (2 / SMOOTHING_RADIUS source_config).
Proof.
  assert (Hh : 0 < SMOOTHING_RADIUS source_config) by (simpl; lra).
  split; [exact Hh |].
  exact (proj1 (proj2 (proj2 (kernel_shape source_config Hh)))).
Defined.

(** C5.  For positions and masses of length [N], [calculate_pressure]
    returns the sum over all [N] particles of
    [kernel(distance(point, positions[i])) * masses[i]], the term of a
    particle that sits on [point] included; when all [N] particles sit on
    [point] the result is [kernel(0)] times the sum of the masses. *)
Theorem pressure_is_weighted_sum (cfg : Config) (point : Vec2)
    (positions : list Vec2) (masses : list R) :
  0 < SMOOTHING_RADIUS cfg ->
  length positions = NUM_PARTICLES cfg ->
  length masses = NUM_PARTICLES cfg ->
  calculate_pressure cfg point positions masses =
    Ok (sum_over (range (NUM_PARTICLES cfg))
          (fun i => kernel cfg (calculate_distance point (vec_at positions i))
                    * mass_at masses i))
  /\ ((forall i, (i < NUM_PARTICLES cfg)%nat -> vec_at positions i = point) ->
      calculate_pressure cfg point positions masses =
        Ok (kernel cfg 0 * sum_over (range (NUM_PARTICLES cfg))
                             (mass_at masses))).
Proof.
  intros Hh Hp Hm.
  assert (Hsum : calculate_pressure cfg point positions masses =
                 Ok (pressure_sum cfg point positions masses))
    by (apply calculate_pressure_sum; lia || lra).
  split.
  - exact Hsum.
  - intros Hsame. rewrite Hsum.
    rewrite pressure_sum_coincident by assumption. reflexivity.
Qed.

Lemma pressure_is_weighted_sum_witness :
  0 < SMOOTHING_RADIUS (with_particles_gravity 2 0) /\
  calculate_pressure (with_particles_gravity 2 0) (3, 4)
    [(3, 4); (3, 4)] [1; 2] =
  Ok (kernel (with_particles_gravity 2 0) 0
      * sum_over (range 2) (mass_at [1; 2])).
Proof.
  assert (Hh : 0 < SMOOTHING_RADIUS (with_particles_gravity 2 0))
    by (simpl; lra).
  split; [exact Hh |].
  apply (pressure_is_weighted_sum (with_particles_gravity 2 0) (3, 4)
           [(3, 4); (3, 4)] [1; 2] Hh eq_refl eq_refl).
  intros i Hi. simpl in Hi.
  destruct i as [| [| i]]; [reflexivity | reflexivity | lia].
Defined.

(** C10 (amended).  In exact arithmetic, with a positive smoothing radius
    and strictly positive masses, the pressure [calculate_pressure]
    estimates at particle [i] of a snapshot is at least
    [(2 / h) * masses[i]], which is positive: the term of the particle
    itself is [kernel(0) * masses[i]].  So the division of the force by
    this pressure meets no zero divisor as long as no product rounds to
    zero; on floats see [smallest_mass_pressure_zero]. *)
Theorem pressure_at_particle_positive (cfg : Config) (snapshot : list Vec2)
    (masses : list R) (i : nat) :
  0 < SMOOTHING_RADIUS cfg ->
  length snapshot = NUM_PARTICLES cfg ->
  length masses = NUM_PARTICLES cfg ->
  (forall j, (j < NUM_PARTICLES cfg)%nat -> 0 < mass_at masses j) ->
  (i < NUM_PARTICLES cfg)%nat ->
  exists P,
    calculate_pressure cfg (vec_at snapshot i) snapshot masses = Ok P
    /\ 0 < 2 / SMOOTHING_RADIUS cfg * mass_at masses i
    /\ 2 / SMOOTHING_RADIUS cfg * mass_at masses i <= P
    /\ forall f, truediv f P = Ok (f / P).
Proof.
  intros Hh Hs Hm Hpos Hi.
  exists (pressure_sum cfg (vec_at snapshot i) snapshot masses).
  assert (Hself : 0 < 2 / SMOOTHING_RADIUS cfg * mass_at masses i)
    by (apply self_term_pos; assumption).
  assert (Hlow : 2 / SMOOTHING_RADIUS cfg * mass_at masses i
                 <= pressure_sum cfg (vec_at snapshot i) snapshot masses)
    by (apply pressure_sum_lower_bound; assumption).
  repeat split.
  - apply calculate_pressure_sum; lia || lra.
  - exact Hself.
  - exact Hlow.
  - intros f. apply truediv_ok. lra.
Qed.

Lemma unit_masses_pos (j : nat) : (j < 2)%nat -> 0 < mass_at [1; 1] j.
Proof.
  intros Hj. unfold mass_at.
  destruct j as [| [| j]]; simpl; [lra | lra | lia].
Defined.

Lemma pressure_at_particle_positive_witness :
  0 < SMOOTHING_RADIUS (with_particles_gravity 2 0) /\
  (forall j, (j < 2)%nat -> 0 < mass_at [1; 1] j) /\
  exists P,
    calculate_pressure (with_particles_gravity 2 0)
      (vec_at [(0, 0); (10, 0)] 0) [(0, 0); (10, 0)] [1; 1] = Ok P
    /\ 0 < 2 / SMOOTHING_RADIUS (with_particles_gravity 2 0)
           * mass_at [1; 1] 0
    /\ 2 / SMOOTHING_RADIUS (with_particles_gravity 2 0) * mass_at [1; 1] 0
       <= P
    /\ forall f, truediv f P = Ok (f / P).
Proof.
  assert (Hh : 0 < SMOOTHING_RADIUS (with_particles_gravity 2 0))
    by (simpl; lra).
  split; [exact Hh | split; [exact unit_masses_pos |]].
  apply (pressure_at_particle_positive (with_particles_gravity 2 0)
           [(0, 0); (10, 0)] [1; 1] 0 Hh eq_refl eq_refl unit_masses_pos).
  simpl. lia.
Defined.

(** * Reading a frame that did not raise *)

Lemma bind_ok_inv {A B : Type} (r : result A) (k : A -> result B) (b : B) :
  bind r k = Ok b -> exists a, r = Ok a /\ k a = Ok b.
Proof.
  destruct r as [a | e]; simpl; intros H.
  - exists a. split; [reflexivity | assumption].
  - discriminate.
Qed.

Lemma getitem_ok_inv {A : Type} (l : list A) (i : nat) (a : A) :
  getitem l i = Ok a -> (i < length l)%nat.
Proof.
  unfold getitem. destruct (nth_error l i) eqn:E; intros H.
  - apply nth_error_Some. congruence.
  - discriminate.
Qed.

Lemma value_ok {A : Type} (d : A) (r : result A) (a : A) :
  r = Ok a -> r = Ok (value d r).
Proof. intros ->. reflexivity. Qed.

(** Every iteration of a loop that did not raise returned. *)
Lemma for_range_bodies_ok {S : Type} (idx : list nat)
    (body : nat -> S -> result S) :
  forall s r, for_range idx body s = Ok r ->
  forall i, In i idx -> exists s1 s2, body i s1 = Ok s2.
Proof.
  induction idx as [| j rest IH]; intros s r H i Hi.
  - destruct Hi.
  - simpl in H. apply bind_ok_inv in H. destruct H as [s' [Hj Hrest]].
    destruct Hi as [<- | Hi].
    + exists s, s'. assumption.
    + apply (IH s' r Hrest i Hi).
Qed.

Lemma comprehension_inv {A : Type} (d : A) (idx : list nat)
    (f : nat -> result A) :
  forall l, comprehension idx f = Ok l ->
  forall i, In i idx -> f i = Ok (value d (f i)).
Proof.
  induction idx as [| j rest IH]; intros l H i Hi.
  - destruct Hi.
  - simpl in H. apply bind_ok_inv in H. destruct H as [a [Hj H]].
    apply bind_ok_inv in H. destruct H as [l' [Hrest _]].
    destruct Hi as [<- | Hi].
    + apply (value_ok d _ a). assumption.
    + apply (IH l' Hrest i Hi).
Qed.

Lemma long_enough {A : Type} (l : list A) (n : nat) :
  (forall i, (i < n)%nat -> (i < length l)%nat) -> (n <= length l)%nat.
Proof.
  intros H. destruct n as [| n].
  - lia.
  - specialize (H n). lia.
Qed.

Section FrameInversion.

Variable cfg : Config.
Local Abbreviation N := (NUM_PARTICLES cfg).

Variables (speeds positions : list Vec2) (masses : list R).

Lemma predict_inv (snapshot : list Vec2) :
  predict cfg speeds positions = Ok snapshot ->
  (N <= length speeds)%nat /\ (N <= length positions)%nat
  /\ snapshot = predicted cfg speeds positions.
Proof.
  intros H.
  assert (Hall : forall i, (i < N)%nat ->
            (i < length positions)%nat /\ (i < length speeds)%nat).
  { intros i Hi. apply in_range in Hi.
    pose proof (comprehension_inv (0, 0) _ _ _ H i Hi) as Hf.
    apply bind_ok_inv in Hf. destruct Hf as [p [Hp Hf]].
    apply bind_ok_inv in Hf. destruct Hf as [s [Hs _]].
    split; eapply getitem_ok_inv; eassumption. }
  assert (Hs : (N <= length speeds)%nat)
    by (apply long_enough; intros; apply Hall; assumption).
  assert (Hp : (N <= length positions)%nat)
    by (apply long_enough; intros; apply Hall; assumption).
  repeat split; try assumption.
  rewrite predict_eq in H by assumption. congruence.
Qed.

Lemma accelerate_inv (snapshot accelerations : list Vec2) :
  accelerate cfg snapshot masses = Ok accelerations ->
  length accelerations = N
  /\ forall i, (i < N)%nat ->
       acceleration_of cfg i snapshot masses = Ok (vec_at accelerations i).
Proof.
  intros H.
  pose (f := fun i => value (0, 0) (acceleration_of cfg i snapshot masses)).
  assert (Hall : forall i, In i (range N) ->
            acceleration_of cfg i snapshot masses = Ok (f i)).
  { intros i Hi.
    destruct (for_range_bodies_ok _ _ _ _ H i Hi) as [l1 [l2 Hb]].
    apply bind_ok_inv in Hb. destruct Hb as [a [Ha _]].
    apply (value_ok _ _ a). assumption. }
  unfold accelerate in H.
  rewrite for_range_append with (f := f) in H.
  - simpl in H. injection H as <-. split.
    + apply length_map_range.
    + intros i Hi. unfold vec_at. rewrite nth_map_range by assumption.
      apply Hall. apply in_range. assumption.
  - intros i l Hi. rewrite Hall by assumption. reflexivity.
Qed.

Lemma integrate_inv (snapshot accelerations new_speeds new_positions
                       : list Vec2) :
  integrate cfg speeds snapshot accelerations masses =
    Ok (new_speeds, new_positions) ->
  length new_speeds = N /\ length new_positions = N
  /\ forall i, (i < N)%nat ->
       integrate_one cfg i speeds snapshot accelerations masses =
       Ok (vec_at new_speeds i, vec_at new_positions i).
Proof.
  intros H.
  pose (g := fun i => value ((0, 0), (0, 0))
               (integrate_one cfg i speeds snapshot accelerations masses)).
  assert (Hall : forall i, (i < N)%nat ->
            integrate_one cfg i speeds snapshot accelerations masses =
            Ok (g i)).
  { intros i Hi. apply in_range in Hi.
    destruct (for_range_bodies_ok _ _ _ _ H i Hi) as [o1 [o2 Hb]].
    apply bind_ok_inv in Hb. destruct Hb as [sp [Hsp _]].
    apply (value_ok _ _ sp). assumption. }
  rewrite (integrate_fill cfg _ _ _ _ g Hall) in H.
  injection H as <- <-. repeat split.
  - apply length_map_range.
  - apply length_map_range.
  - intros i Hi. unfold vec_at. rewrite !nth_map_range by assumption.
    rewrite Hall by assumption. destruct (g i). reflexivity.
Qed.

Lemma update_inv (new_speeds new_positions : list Vec2) :
  update cfg speeds positions masses = Ok (new_speeds, new_positions) ->
  exists accelerations,
    (N <= length speeds)%nat /\ (N <= length positions)%nat
    /\ accelerate cfg (predicted cfg speeds positions) masses
       = Ok accelerations
    /\ integrate cfg speeds (predicted cfg speeds positions) accelerations
         masses = Ok (new_speeds, new_positions).
Proof.
  intros H. unfold update in H.
  apply bind_ok_inv in H. destruct H as [snapshot [Hp H]].
  apply bind_ok_inv in H. destruct H as [accelerations [Ha H]].
  apply predict_inv in Hp. destruct Hp as [Hs [Hp ->]].
  exists accelerations. repeat split; assumption.
Qed.

End FrameInversion.

(** ** Distances *)

Lemma calculate_distance_zero_iff (p q : Vec2) :
  calculate_distance p q = 0 <-> p = q.
Proof.
  split.
  - unfold calculate_distance. intros H.
    apply sqrt_eq_0 in H;
      [| apply Rplus_le_le_0_compat; apply pow2_ge_0].
    destruct p as [px py], q as [qx qy]. simpl in H.
    pose proof (Rle_0_sqr (px - qx)) as Sx. unfold Rsqr in Sx.
    pose proof (Rle_0_sqr (py - qy)) as Sy. unfold Rsqr in Sy.
    assert (Hx : (px - qx) * (px - qx) = 0) by lra.
    assert (Hy : (py - qy) * (py - qy) = 0) by lra.
    apply Rmult_integral in Hx. apply Rmult_integral in Hy.
    f_equal; lra.
  - intros ->. apply calculate_distance_self.
Qed.

(** ** The golden scenario of the specification (section 8) *)

Lemma golden_radius : 0 < SMOOTHING_RADIUS (with_particles_gravity 2 0).
Proof. simpl. lra. Qed.

Lemma golden_apart (i : nat) :
  (i < NUM_PARTICLES (with_particles_gravity 2 0))%nat ->
  apart (with_particles_gravity 2 0)
    (predicted (with_particles_gravity 2 0) golden_speeds golden_positions) i.
Proof.
  intros Hi j Hj Hne H. apply calculate_distance_zero_iff in H.
  simpl in Hi, Hj.
  destruct i as [| [| i]]; destruct j as [| [| j]]; try lia;
    unfold vec_at in H; simpl in H; injection H; intros; lra.
Qed.

Lemma golden_pressure (i : nat) :
  (i < NUM_PARTICLES (with_particles_gravity 2 0))%nat ->
  pressure_sum (with_particles_gravity 2 0)
    (vec_at (predicted (with_particles_gravity 2 0) golden_speeds
               golden_positions) i)
    (predicted (with_particles_gravity 2 0) golden_speeds golden_positions)
    golden_masses <> 0.
Proof.
  intros Hi. apply Rgt_not_eq. apply Rlt_gt.
  apply pressure_sum_pos.
  - apply golden_radius.
  - exact unit_masses_pos.
  - assumption.
Qed.

(** * The claims about one frame *)

(** C4.  [update] computes every acceleration from the predicted
    positions [position + velocity] alone: for each particle [i] the
    acceleration starts as (0, G), gathers over every [j <> i] the term
    [((p'_i - p'_j) / d) * derivative(d) * masses[j]
     * (TARGET_PRESSURE - pressureAtI) * PRESSURE_FORCE_MULT] on each
    axis, and receives the force divided by [pressureAtI], the pressure
    estimated at [p'_i]; the integration then runs on the list of these
    accelerations, so none of them sees an updated particle. *)
Theorem accelerations_from_snapshot (cfg : Config)
    (speeds positions : list Vec2) (masses : list R) :
  0 < SMOOTHING_RADIUS cfg ->
  length speeds = NUM_PARTICLES cfg ->
  length positions = NUM_PARTICLES cfg ->
  length masses = NUM_PARTICLES cfg ->
  (forall i, (i < NUM_PARTICLES cfg)%nat ->
     apart cfg (predicted cfg speeds positions) i) ->
  (forall i, (i < NUM_PARTICLES cfg)%nat ->
     pressure_sum cfg (vec_at (predicted cfg speeds positions) i)
       (predicted cfg speeds positions) masses <> 0) ->
  predict cfg speeds positions = Ok (predicted cfg speeds positions)
  /\ (forall i, (i < NUM_PARTICLES cfg)%nat ->
        calculate_pressure cfg (vec_at (predicted cfg speeds positions) i)
          (predicted cfg speeds positions) masses
        = Ok (pressure_sum cfg (vec_at (predicted cfg speeds positions) i)
                (predicted cfg speeds positions) masses)
        /\ acceleration_of cfg i (predicted cfg speeds positions) masses
           = Ok (acceleration_spec cfg (predicted cfg speeds positions)
                   masses i))
  /\ accelerate cfg (predicted cfg speeds positions) masses
     = Ok (map (acceleration_spec cfg (predicted cfg speeds positions) masses)
             (range (NUM_PARTICLES cfg)))
  /\ update cfg speeds positions masses
     = integrate cfg speeds (predicted cfg speeds positions)
         (map (acceleration_spec cfg (predicted cfg speeds positions) masses)
            (range (NUM_PARTICLES cfg)))
         masses.
Proof.
  intros Hh Hs Hp Hm Hapart HP.
  assert (Hnz : SMOOTHING_RADIUS cfg <> 0) by lra.
  assert (Hlen : (NUM_PARTICLES cfg
                  <= length (predicted cfg speeds positions))%nat)
    by (rewrite length_predicted; apply Nat.le_refl).
  assert (Hpred : predict cfg speeds positions
                  = Ok (predicted cfg speeds positions))
    by (apply predict_eq; lia).
  assert (Hacc : accelerate cfg (predicted cfg speeds positions) masses
                 = Ok (map (acceleration_spec cfg
                              (predicted cfg speeds positions) masses)
                         (range (NUM_PARTICLES cfg))))
    by (apply accelerate_spec; try assumption; lia).
  split; [exact Hpred |]. split; [| split; [exact Hacc |]].
  - intros i Hi. split.
    + apply calculate_pressure_sum; try assumption; lia.
    + apply acceleration_of_spec; try assumption; try lia; auto.
  - unfold update. rewrite Hpred. simpl bind. rewrite Hacc. reflexivity.
Qed.

Lemma accelerations_from_snapshot_witness :
  0 < SMOOTHING_RADIUS (with_particles_gravity 2 0) /\
  accelerate (with_particles_gravity 2 0)
    (predicted (with_particles_gravity 2 0) golden_speeds golden_positions)
    golden_masses
  = Ok (map (acceleration_spec (with_particles_gravity 2 0)
               (predicted (with_particles_gravity 2 0) golden_speeds
                  golden_positions) golden_masses)
          (range 2)).
Proof.
  split; [exact golden_radius |].
  exact (proj1 (proj2 (proj2
    (accelerations_from_snapshot (with_particles_gravity 2 0)
       golden_speeds golden_positions golden_masses
       golden_radius eq_refl eq_refl eq_refl golden_apart golden_pressure)))).
Defined.

(** C7.  Once the accelerations are known, [update] gives every particle
    [i] the velocity [velocity_i + acceleration_i] and the position
    [predictedPosition_i + velocity'_i], and then resolves each axis once
    against the walls: below [displayRadius_i = mass_i^(1/3) *
    PARTICLE_SIZE] the position becomes [displayRadius_i] and the
    velocity of that axis is multiplied by [- WALL_MULT]; otherwise, above
    [extent - displayRadius_i], the position becomes
    [extent - displayRadius_i] and the velocity is multiplied by
    [- WALL_MULT]; otherwise both are kept. *)
Theorem integrator_and_walls (cfg : Config) (speeds positions : list Vec2)
    (masses : list R) (snapshot accelerations : list Vec2) :
  predict cfg speeds positions = Ok snapshot ->
  accelerate cfg snapshot masses = Ok accelerations ->
  length masses = NUM_PARTICLES cfg ->
  (forall j, (j < NUM_PARTICLES cfg)%nat -> 0 < mass_at masses j) ->
  exists new_speeds new_positions,
    update cfg speeds positions masses = Ok (new_speeds, new_positions)
    /\ length new_speeds = NUM_PARTICLES cfg
    /\ length new_positions = NUM_PARTICLES cfg
    /\ forall i, (i < NUM_PARTICLES cfg)%nat ->
         vec_at snapshot i
           = (fst (vec_at positions i) + fst (vec_at speeds i),
              snd (vec_at positions i) + snd (vec_at speeds i))
         /\ wall_resolved cfg (WIDTH cfg)
              (display_radius cfg (mass_at masses i))
              (fst (vec_at snapshot i)
               + (fst (vec_at speeds i) + fst (vec_at accelerations i)))
              (fst (vec_at speeds i) + fst (vec_at accelerations i))
              (fst (vec_at new_positions i)) (fst (vec_at new_speeds i))
         /\ wall_resolved cfg (HEIGHT cfg)
              (display_radius cfg (mass_at masses i))
              (snd (vec_at snapshot i)
               + (snd (vec_at speeds i) + snd (vec_at accelerations i)))
              (snd (vec_at speeds i) + snd (vec_at accelerations i))
              (snd (vec_at new_positions i)) (snd (vec_at new_speeds i)).
Proof.
  intros Hpred Hacc Hm Hpos.
  pose proof (predict_inv cfg _ _ _ Hpred) as [Hs [Hp Hsnap]].
  pose proof (accelerate_inv cfg _ _ _ Hacc) as [Hla _].
  pose (g := fun i => step_particle cfg (vec_at speeds i) (vec_at snapshot i)
                        (vec_at accelerations i) (mass_at masses i)).
  assert (Hone : forall i, (i < NUM_PARTICLES cfg)%nat ->
            integrate_one cfg i speeds snapshot accelerations masses
            = Ok (g i)).
  { intros i Hi. apply integrate_one_eq; try lia.
    - rewrite Hsnap, length_predicted. assumption.
    - apply Hpos. assumption. }
  exists (map (fun i => fst (g i)) (range (NUM_PARTICLES cfg))),
         (map (fun i => snd (g i)) (range (NUM_PARTICLES cfg))).
  split; [| split; [apply length_map_range | split;
                     [apply length_map_range |]]].
  - unfold update. rewrite Hpred. simpl bind. rewrite Hacc. simpl bind.
    apply integrate_fill. assumption.
  - intros i Hi. split; [| split].
    + rewrite Hsnap. unfold predicted, vec_at at 1.
      rewrite nth_map_range by assumption. reflexivity.
    + unfold vec_at at 6 7. rewrite !nth_map_range by assumption.
      unfold g, step_particle. simpl fst. simpl snd.
      apply bounce_resolved.
    + unfold vec_at at 6 7. rewrite !nth_map_range by assumption.
      unfold g, step_particle. simpl fst. simpl snd.
      apply bounce_resolved.
Qed.

Lemma integrator_and_walls_witness :
  predict (with_particles_gravity 2 0) golden_speeds golden_positions
    = Ok (predicted (with_particles_gravity 2 0) golden_speeds
            golden_positions) /\
  (forall j, (j < 2)%nat -> 0 < mass_at golden_masses j) /\
  exists new_speeds new_positions,
    update (with_particles_gravity 2 0) golden_speeds golden_positions
      golden_masses = Ok (new_speeds, new_positions)
    /\ length new_speeds = 2%nat /\ length new_positions = 2%nat.
Proof.
  assert (Hpred :
    predict (with_particles_gravity 2 0) golden_speeds golden_positions
    = Ok (predicted (with_particles_gravity 2 0) golden_speeds
            golden_positions))
    by (apply predict_eq; simpl; lia).
  split; [exact Hpred | split; [exact unit_masses_pos |]].
  destruct (integrator_and_walls (with_particles_gravity 2 0)
              golden_speeds golden_positions golden_masses _ _
              Hpred
              (accelerate_predicted (with_particles_gravity 2 0)
                 golden_speeds golden_positions golden_masses
                 (Nat.le_refl 2) golden_radius unit_masses_pos golden_apart)
              eq_refl unit_masses_pos)
    as [new_speeds [new_positions [Hup [Hls [Hlp _]]]]].
  exists new_speeds, new_positions.
  split; [exact Hup | split; [exact Hls | exact Hlp]].
Defined.

(** * Coincident particles (section 7) *)

Lemma ok_or_raises_bind {A B : Type} (e : exception) (r : result A)
    (k : A -> result B) :
  ok_or_raises e r -> (forall a, ok_or_raises e (k a)) ->
  ok_or_raises e (bind r k).
Proof.
  intros Hr Hk. destruct r as [a | e']; simpl.
  - apply Hk.
  - exact Hr.
Qed.

Lemma raises_bind {A B : Type} (e : exception) (r : result A)
    (k : A -> result B) :
  ok_or_raises e r -> (forall a, k a = Raise e) -> bind r k = Raise e.
Proof.
  intros Hr Hk. destruct r as [a | e']; simpl.
  - apply Hk.
  - simpl in Hr. rewrite Hr. reflexivity.
Qed.

Lemma truediv_ok_or_raises (x y : R) :
  ok_or_raises ZeroDivisionError (truediv x y).
Proof.
  unfold truediv. destruct (Req_dec_T y 0); simpl; auto.
Qed.

Lemma for_range_ok_or_raises {S : Type} (e : exception) (idx : list nat)
    (body : nat -> S -> result S) :
  (forall k s, In k idx -> ok_or_raises e (body k s)) ->
  forall s, ok_or_raises e (for_range idx body s).
Proof.
  induction idx as [| k rest IH]; intros Hall s; simpl.
  - exact I.
  - apply ok_or_raises_bind.
    + apply Hall. left. reflexivity.
    + intros s'. apply IH. intros; apply Hall; right; assumption.
Qed.

(** A loop one iteration of which raises [e] whatever the accumulator,
    while the others return or raise [e], raises [e]. *)
Lemma for_range_raises {S : Type} (e : exception) (idx : list nat)
    (body : nat -> S -> result S) (k : nat) :
  (forall j s, In j idx -> ok_or_raises e (body j s)) ->
  In k idx -> (forall s, body k s = Raise e) ->
  forall s, for_range idx body s = Raise e.
Proof.
  induction idx as [| j rest IH]; intros Hall Hk Hraise s.
  - destruct Hk.
  - simpl. destruct Hk as [-> | Hk].
    + rewrite Hraise. reflexivity.
    + apply raises_bind.
      * apply Hall. left. reflexivity.
      * intros s'. apply IH; try assumption.
        intros; apply Hall; right; assumption.
Qed.

Section Coincident.

Variable cfg : Config.
Local Abbreviation N := (NUM_PARTICLES cfg).

Variables (snapshot : list Vec2) (masses : list R).
Hypothesis snapshot_long : (N <= length snapshot)%nat.
Hypothesis masses_long : (N <= length masses)%nat.

Lemma smoothing_function_ok_or_raises (d : R) :
  ok_or_raises ZeroDivisionError (smoothing_function cfg d).
Proof.
  unfold smoothing_function.
  apply ok_or_raises_bind; [apply truediv_ok_or_raises | intros q].
  apply ok_or_raises_bind; [apply truediv_ok_or_raises | intros s].
  exact I.
Qed.

Lemma smoothing_derivative_ok_or_raises (d : R) :
  ok_or_raises ZeroDivisionError (smoothing_derivative cfg d).
Proof. unfold smoothing_derivative. apply truediv_ok_or_raises. Qed.

Lemma calculate_pressure_ok_or_raises (point : Vec2) :
  ok_or_raises ZeroDivisionError
    (calculate_pressure cfg point snapshot masses).
Proof.
  unfold calculate_pressure. apply for_range_ok_or_raises.
  intros k s Hk. apply in_range in Hk.
  rewrite (getitem_nth snapshot k (0, 0)) by lia. simpl bind.
  apply ok_or_raises_bind;
    [apply smoothing_function_ok_or_raises | intros kv].
  rewrite (getitem_nth masses k 0) by lia. exact I.
Qed.

Lemma force_body_ok_or_raises (i j : nat) (P : R) (s : Vec2) :
  (i < N)%nat -> (j < N)%nat ->
  ok_or_raises ZeroDivisionError
    (if Nat.eqb i j then Ok s
     else
       pi <- getitem snapshot i ;;
       pj <- getitem snapshot j ;;
       let distance := calculate_distance pi pj in
       d <- smoothing_derivative cfg distance ;;
       m <- getitem masses j ;;
       let pressure_gradient := d * m in
       let pressure_difference := TARGET_PRESSURE cfg - P in
       ux <- truediv (fst pi - fst pj) distance ;;
       let fx := fst s
                 + ux * pressure_gradient * pressure_difference
                   * PRESSURE_FORCE_MULT cfg in
       uy <- truediv (snd pi - snd pj) distance ;;
       let fy := snd s
                 + uy * pressure_gradient * pressure_difference
                   * PRESSURE_FORCE_MULT cfg in
       Ok (fx, fy)).
Proof.
  intros Hi Hj. destruct (Nat.eqb i j); [exact I |].
  rewrite (getitem_nth snapshot i (0, 0)) by lia. simpl bind.
  rewrite (getitem_nth snapshot j (0, 0)) by lia. simpl bind.
  apply ok_or_raises_bind;
    [apply smoothing_derivative_ok_or_raises | intros d].
  rewrite (getitem_nth masses j 0) by lia. simpl bind.
  apply ok_or_raises_bind; [apply truediv_ok_or_raises | intros ux].
  apply ok_or_raises_bind; [apply truediv_ok_or_raises | intros uy].
  exact I.
Qed.

Lemma pressure_force_loop_ok_or_raises (i : nat) (P : R) :
  (i < N)%nat ->
  ok_or_raises ZeroDivisionError
    (pressure_force_loop cfg i snapshot masses P).
Proof.
  intros Hi. unfold pressure_force_loop. apply for_range_ok_or_raises.
  intros j s Hj. apply in_range in Hj.
  apply force_body_ok_or_raises; assumption.
Qed.

Lemma acceleration_of_ok_or_raises (i : nat) :
  (i < N)%nat ->
  ok_or_raises ZeroDivisionError (acceleration_of cfg i snapshot masses).
Proof.
  intros Hi. unfold acceleration_of.
  rewrite (getitem_nth snapshot i (0, 0)) by lia. simpl bind.
  apply ok_or_raises_bind;
    [apply calculate_pressure_ok_or_raises | intros P].
  apply ok_or_raises_bind;
    [apply pressure_force_loop_ok_or_raises; assumption | intros f].
  apply ok_or_raises_bind; [apply truediv_ok_or_raises | intros ax].
  apply ok_or_raises_bind; [apply truediv_ok_or_raises | intros ay].
  exact I.
Qed.

Variables i j : nat.
Hypothesis i_particle : (i < N)%nat.
Hypothesis j_particle : (j < N)%nat.
Hypothesis distinct : i <> j.
Hypothesis coincide : vec_at snapshot i = vec_at snapshot j.

Lemma pressure_force_loop_coincident (P : R) :
  pressure_force_loop cfg i snapshot masses P = Raise ZeroDivisionError.
Proof.
  unfold pressure_force_loop.
  apply for_range_raises with (k := j).
  - intros k s Hk. apply in_range in Hk.
    apply force_body_ok_or_raises; assumption.
  - apply in_range. assumption.
  - intros s.
    apply Nat.eqb_neq in distinct. rewrite distinct.
    rewrite (getitem_nth snapshot i (0, 0)) by lia. simpl bind.
    rewrite (getitem_nth snapshot j (0, 0)) by lia. simpl bind.
    apply raises_bind;
      [apply smoothing_derivative_ok_or_raises | intros d].
    rewrite (getitem_nth masses j 0) by lia. simpl bind.
    fold (vec_at snapshot i). fold (vec_at snapshot j).
    rewrite coincide. rewrite calculate_distance_self.
    rewrite truediv_zero. reflexivity.
Qed.

Lemma acceleration_of_coincident :
  acceleration_of cfg i snapshot masses = Raise ZeroDivisionError.
Proof.
  unfold acceleration_of.
  rewrite (getitem_nth snapshot i (0, 0)) by lia. simpl bind.
  apply raises_bind;
    [apply calculate_pressure_ok_or_raises | intros P].
  rewrite pressure_force_loop_coincident. reflexivity.
Qed.

Lemma accelerate_coincident :
  accelerate cfg snapshot masses = Raise ZeroDivisionError.
Proof.
  unfold accelerate. apply for_range_raises with (k := i).
  - intros k l Hk. apply in_range in Hk.
    apply ok_or_raises_bind;
      [apply acceleration_of_ok_or_raises; assumption | intros a].
    exact I.
  - apply in_range. assumption.
  - intros l. rewrite acceleration_of_coincident. reflexivity.
Qed.

End Coincident.

(** C9.  When two distinct particles have the same predicted position,
    the distance between them is 0 and the pairwise term of [update]
    divides by it unguarded: the frame raises [ZeroDivisionError] instead
    of returning a state. *)
Theorem coincident_particles_raise (cfg : Config)
    (speeds positions : list Vec2) (masses : list R) (i j : nat) :
  length speeds = NUM_PARTICLES cfg ->
  length positions = NUM_PARTICLES cfg ->
  length masses = NUM_PARTICLES cfg ->
  (i < NUM_PARTICLES cfg)%nat ->
  (j < NUM_PARTICLES cfg)%nat ->
  i <> j ->
  vec_at (predicted cfg speeds positions) i
    = vec_at (predicted cfg speeds positions) j ->
  calculate_distance (vec_at (predicted cfg speeds positions) i)
    (vec_at (predicted cfg speeds positions) j) = 0
  /\ update cfg speeds positions masses = Raise ZeroDivisionError.
Proof.
  intros Hs Hp Hm Hi Hj Hij Hsame. split.
  - rewrite Hsame. apply calculate_distance_self.
  - unfold update.
    rewrite predict_eq by lia. simpl bind.
    rewrite (accelerate_coincident cfg _ masses) with (i := i) (j := j);
      try assumption; try lia.
    + reflexivity.
    + rewrite length_predicted. apply Nat.le_refl.
Qed.

Lemma coincident_particles_raise_witness :
  (0 < 2)%nat /\ (1 < 2)%nat /\ 0%nat <> 1%nat /\
  update (with_particles_gravity 2 0)
    [(0, 0); (0, 0)] [(7, 7); (7, 7)] [1; 1] = Raise ZeroDivisionError.
Proof.
  assert (H0 : (0 < 2)%nat) by lia.
  assert (H1 : (1 < 2)%nat) by lia.
  assert (Hne : 0%nat <> 1%nat) by lia.
  split; [exact H0 | split; [exact H1 | split; [exact Hne |]]].
  exact (proj2 (coincident_particles_raise (with_particles_gravity 2 0)
                  [(0, 0); (0, 0)] [(7, 7); (7, 7)] [1; 1] 0 1
                  eq_refl eq_refl eq_refl H0 H1 Hne eq_refl)).
Defined.

(** * A single particle *)

Lemma Rpower_one (y : R) : Rpower 1 y = 1.
Proof. unfold Rpower. rewrite ln_1, Rmult_0_r. apply exp_0. Qed.

Lemma run_snoc (cfg : Config) (masses : list R) (t : nat) :
  forall speeds positions,
    run cfg (S t) speeds positions masses =
    (sp <- run cfg t speeds positions masses ;;
     update cfg (fst sp) (snd sp) masses).
Proof.
  induction t as [| t IH]; intros speeds positions.
  - simpl. destruct (update cfg speeds positions masses) as [[s p] | e];
      reflexivity.
  - change (run cfg (S (S t)) speeds positions masses)
      with (sp <- update cfg speeds positions masses ;;
            run cfg (S t) (fst sp) (snd sp) masses).
    change (run cfg (S t) speeds positions masses)
      with (sp <- update cfg speeds positions masses ;;
            run cfg t (fst sp) (snd sp) masses).
    destruct (update cfg speeds positions masses) as [[s p] | e]; simpl.
    + apply IH.
    + reflexivity.
Qed.

Section SingleParticle.

Variable cfg : Config.
Hypothesis one_particle : NUM_PARTICLES cfg = 1%nat.
Hypothesis radius_pos : 0 < SMOOTHING_RADIUS cfg.

Variable m : R.
Hypothesis mass_pos : 0 < m.

Lemma single_no_pressure_force (speeds positions : list Vec2)
    (masses : list R) :
  no_pressure_force cfg speeds positions masses 0.
Proof.
  intros P _. unfold pressure_force_loop.
  rewrite one_particle. reflexivity.
Qed.

Lemma update_single (v p : Vec2) :
  update cfg [v] [p] [m] =
  Ok ([fst (step_particle cfg v (fst p + fst v, snd p + snd v)
              (0, GRAVITY cfg) m)],
      [snd (step_particle cfg v (fst p + fst v, snd p + snd v)
              (0, GRAVITY cfg) m)]).
Proof.
  rewrite update_eq.
  - unfold next_state, next_particle, acceleration_spec, force_sum, others,
      predicted.
    rewrite one_particle. simpl.
    unfold vec_at, mass_at. simpl.
    replace (0 + 0 / _) with 0 by (unfold Rdiv; ring).
    replace (GRAVITY cfg + 0 / _) with (GRAVITY cfg) by (unfold Rdiv; ring).
    reflexivity.
  - rewrite one_particle. apply Nat.le_refl.
  - rewrite one_particle. apply Nat.le_refl.
  - rewrite one_particle. apply Nat.le_refl.
  - assumption.
  - rewrite one_particle. intros j Hj.
    replace j with 0%nat by lia. exact mass_pos.
  - rewrite one_particle. intros i Hi j Hj Hne. lia.
Qed.

(** A particle that meets no wall falls freely: after a frame its speed
    has grown by [G] and its position by the old speed plus the new one. *)
Lemma update_single_inside (vx vy x y : R) :
  display_radius cfg m <= x + vx + (vx + 0) ->
  x + vx + (vx + 0) <= WIDTH cfg - display_radius cfg m ->
  display_radius cfg m <= y + vy + (vy + GRAVITY cfg) ->
  y + vy + (vy + GRAVITY cfg) <= HEIGHT cfg - display_radius cfg m ->
  update cfg [(vx, vy)] [(x, y)] [m] =
  Ok ([(vx + 0, vy + GRAVITY cfg)],
      [(x + vx + (vx + 0), y + vy + (vy + GRAVITY cfg))]).
Proof.
  intros Hx1 Hx2 Hy1 Hy2. rewrite update_single.
  unfold step_particle. simpl fst. simpl snd.
  rewrite !bounce_inside by assumption. reflexivity.
Qed.

(** The closed form of the fall from rest of a particle that stays
    inside the walls. *)
Lemma single_fall_run (x y : R) (t : nat) :
  display_radius cfg m <= x <= WIDTH cfg - display_radius cfg m ->
  (forall k, (k <= t)%nat ->
     display_radius cfg m <= y + GRAVITY cfg * (INR k * INR k)
     <= HEIGHT cfg - display_radius cfg m) ->
  run cfg t [(0, 0)] [(x, y)] [m] =
  Ok ([(0, INR t * GRAVITY cfg)],
      [(x, y + GRAVITY cfg * (INR t * INR t))]).
Proof.
  intros Hx. induction t as [| t IH]; intros Hy.
  - simpl run. simpl INR. apply f_equal. apply f_equal2.
    + f_equal. apply f_equal2; ring.
    + f_equal. apply f_equal2; ring.
  - rewrite run_snoc. rewrite IH by (intros k Hk; apply Hy; lia).
    simpl bind. simpl fst. simpl snd.
    pose proof (Hy (S t) (Nat.le_refl _)) as Hnext.
    rewrite S_INR in Hnext.
    rewrite update_single_inside by lra.
    rewrite S_INR. apply f_equal. apply f_equal2.
    + f_equal. apply f_equal2; ring.
    + f_equal. apply f_equal2; ring.
Qed.

End SingleParticle.

(** C8 (amended).  For a single particle with zero gravity and zero
    initial velocity whose initial position lies inside the walls inset
    by its display radius, a frame returns zero velocity and the initial
    position again, and so does any number of frames. *)
Theorem single_particle_rest (cfg : Config) (m x y : R) (t : nat) :
  NUM_PARTICLES cfg = 1%nat ->
  GRAVITY cfg = 0 ->
  0 < SMOOTHING_RADIUS cfg ->
  0 < m ->
  display_radius cfg m <= x <= WIDTH cfg - display_radius cfg m ->
  display_radius cfg m <= y <= HEIGHT cfg - display_radius cfg m ->
  update cfg [(0, 0)] [(x, y)] [m] = Ok ([(0, 0)], [(x, y)])
  /\ run cfg t [(0, 0)] [(x, y)] [m] = Ok ([(0, 0)], [(x, y)]).
Proof.
  intros HN HG Hh Hm Hx Hy.
  assert (Hrun : forall n, run cfg n [(0, 0)] [(x, y)] [m]
                           = Ok ([(0, 0)], [(x, y)])).
  { intros n. rewrite single_fall_run; try assumption.
    - rewrite HG. apply f_equal. apply f_equal2.
      + f_equal. apply f_equal2; ring.
      + f_equal. apply f_equal2; ring.
    - intros k _. rewrite HG. lra. }
  split.
  - specialize (Hrun 1%nat). simpl in Hrun.
    destruct (update cfg [(0, 0)] [(x, y)] [m]) as [[s p] | e];
      simpl in Hrun; [exact Hrun | discriminate].
  - apply Hrun.
Qed.

Lemma single_display_radius (g : R) :
  display_radius (with_particles_gravity 1 g) 1 = 5.
Proof. unfold display_radius. rewrite Rpower_one. simpl. ring. Qed.

Lemma single_particle_rest_witness :
  display_radius (with_particles_gravity 1 0) 1 <= 200
    <= WIDTH (with_particles_gravity 1 0)
       - display_radius (with_particles_gravity 1 0) 1 /\
  run (with_particles_gravity 1 0) 3 [(0, 0)] [(200, 200)] [1]
    = Ok ([(0, 0)], [(200, 200)]).
Proof.
  assert (Hh : 0 < SMOOTHING_RADIUS (with_particles_gravity 1 0))
    by (simpl; lra).
  assert (Hm : 0 < 1) by lra.
  assert (Hx : display_radius (with_particles_gravity 1 0) 1 <= 200
               <= WIDTH (with_particles_gravity 1 0)
                  - display_radius (with_particles_gravity 1 0) 1)
    by (rewrite single_display_radius; simpl; lra).
  split; [exact Hx |].
  exact (proj2 (single_particle_rest (with_particles_gravity 1 0) 1 200 200 3
                  eq_refl eq_refl Hh Hm Hx Hx)).
Defined.

(** C8 as stated fails next to a wall: a single particle at rest at
    (0, 0), with zero gravity, is moved to (5, 5) by the first frame. *)
Lemma single_particle_at_wall_moves :
  NUM_PARTICLES (with_particles_gravity 1 0) = 1%nat /\
  GRAVITY (with_particles_gravity 1 0) = 0 /\
  run (with_particles_gravity 1 0) 1 [(0, 0)] [(0, 0)] [1]
    = Ok ([(0, 0)], [(5, 5)]) /\
  (5, 5) <> ((0, 0) : Vec2).
Proof.
  split; [reflexivity | split; [reflexivity | split]].
  - simpl run.
    rewrite update_single by (reflexivity || (simpl; lra) || lra).
    simpl bind. unfold step_particle, bounce.
    rewrite single_display_radius. simpl.
    destruct (Rlt_dec (0 + 0 + (0 + 0)) (0 + 5)) as [_ | C]; [| lra].
    simpl. apply f_equal. apply f_equal2.
    + f_equal. apply f_equal2; lra.
    + f_equal. apply f_equal2; lra.
  - intros H. injection H. intros. lra.
Qed.

(** * Motion under gravity alone (section 8) *)

Lemma truediv_inv (x y q : R) : truediv x y = Ok q -> q = x / y.
Proof.
  unfold truediv. destruct (Req_dec_T y 0); intros H.
  - discriminate.
  - congruence.
Qed.

Lemma integrate_one_lengths (cfg : Config) (i : nat)
    (speeds snapshot accelerations : list Vec2) (masses : list R)
    (out : Vec2 * Vec2) :
  integrate_one cfg i speeds snapshot accelerations masses = Ok out ->
  (i < length speeds)%nat /\ (i < length snapshot)%nat
  /\ (i < length accelerations)%nat /\ (i < length masses)%nat.
Proof.
  unfold integrate_one. intros H.
  apply bind_ok_inv in H. destruct H as [s [Hs H]].
  apply bind_ok_inv in H. destruct H as [a [Ha H]].
  apply bind_ok_inv in H. destruct H as [p [Hp H]].
  apply bind_ok_inv in H. destruct H as [m [Hm _]].
  repeat split; eapply getitem_ok_inv; eassumption.
Qed.

Lemma vec_at_predicted (cfg : Config) (speeds positions : list Vec2)
    (i : nat) :
  (i < NUM_PARTICLES cfg)%nat ->
  vec_at (predicted cfg speeds positions) i
  = (fst (vec_at positions i) + fst (vec_at speeds i),
     snd (vec_at positions i) + snd (vec_at speeds i)).
Proof.
  intros Hi. unfold predicted, vec_at at 1.
  rewrite nth_map_range by assumption. reflexivity.
Qed.

(** One frame of a particle on which no pressure force acts: it is
    integrated with the acceleration (0, G). *)
Lemma update_particle_gravity_only (cfg : Config)
    (speeds positions : list Vec2) (masses : list R) (i : nat)
    (new_speeds new_positions : list Vec2) :
  update cfg speeds positions masses = Ok (new_speeds, new_positions) ->
  (i < NUM_PARTICLES cfg)%nat ->
  0 < mass_at masses i ->
  no_pressure_force cfg speeds positions masses i ->
  step_particle cfg (vec_at speeds i)
    (vec_at (predicted cfg speeds positions) i) (0, GRAVITY cfg)
    (mass_at masses i)
  = (vec_at new_speeds i, vec_at new_positions i).
Proof.
  intros Hup Hi Hm Hnf.
  destruct (update_inv _ _ _ _ _ _ Hup) as [accs [Hs [Hp [Hacc Hint]]]].
  destruct (accelerate_inv _ _ _ _ Hacc) as [Hla Hai].
  specialize (Hai i Hi).
  destruct (integrate_inv _ _ _ _ _ _ _ Hint) as [_ [_ Hii]].
  specialize (Hii i Hi).
  assert (Ha : vec_at accs i = (0, GRAVITY cfg)).
  { unfold acceleration_of in Hai.
    rewrite (getitem_nth _ i (0, 0)) in Hai
      by (rewrite length_predicted; assumption).
    simpl bind in Hai. fold (vec_at (predicted cfg speeds positions) i) in Hai.
    apply bind_ok_inv in Hai. destruct Hai as [P [HP Hai]].
    rewrite (Hnf P HP) in Hai. simpl bind in Hai.
    apply bind_ok_inv in Hai. destruct Hai as [ax [Hax Hai]].
    apply bind_ok_inv in Hai. destruct Hai as [ay [Hay Hai]].
    apply truediv_inv in Hax. apply truediv_inv in Hay.
    simpl in Hai. injection Hai as Hv. rewrite <- Hv. subst ax ay.
    apply f_equal2; unfold Rdiv; ring. }
  destruct (integrate_one_lengths _ _ _ _ _ _ _ Hii) as [L1 [L2 [L3 L4]]].
  rewrite integrate_one_eq in Hii by assumption.
  rewrite Ha in Hii. congruence.
Qed.

(** C2 (amended).  In a run where the pairwise pressure force on a
    particle is zero in every frame, which starts with zero vertical
    velocity and in which the particle meets no horizontal wall, the
    vertical velocity after [t] frames is [t * G] and the vertical
    displacement is [G * t^2]: every frame adds the old velocity and the
    new one to the position. *)
Theorem gravity_only_motion (cfg : Config) (speeds positions : list Vec2)
    (masses : list R) (i t : nat) :
  (i < NUM_PARTICLES cfg)%nat ->
  0 < mass_at masses i ->
  snd (vec_at speeds i) = 0 ->
  (forall k sk pk, (k < t)%nat ->
     run cfg k speeds positions masses = Ok (sk, pk) ->
     no_pressure_force cfg sk pk masses i) ->
  (forall k, (1 <= k <= t)%nat ->
     display_radius cfg (mass_at masses i)
     <= snd (vec_at positions i) + GRAVITY cfg * (INR k * INR k)
     <= HEIGHT cfg - display_radius cfg (mass_at masses i)) ->
  forall st pt,
    run cfg t speeds positions masses = Ok (st, pt) ->
    snd (vec_at st i) = INR t * GRAVITY cfg
    /\ snd (vec_at pt i) - snd (vec_at positions i)
       = GRAVITY cfg * (INR t * INR t).
Proof.
  intros Hi Hm Hv0. induction t as [| t IH]; intros Hforce Hwall st pt Hrun.
  - simpl in Hrun. injection Hrun as <- <-. rewrite Hv0. simpl. split; ring.
  - rewrite run_snoc in Hrun.
    apply bind_ok_inv in Hrun. destruct Hrun as [[sk pk] [Hk Hup]].
    simpl fst in Hup. simpl snd in Hup.
    assert (IHt : snd (vec_at sk i) = INR t * GRAVITY cfg
                  /\ snd (vec_at pk i) - snd (vec_at positions i)
                     = GRAVITY cfg * (INR t * INR t)).
    { apply IH; try assumption.
      - intros k sk' pk' Hlt. apply Hforce. lia.
      - intros k Hk1. apply Hwall. lia. }
    destruct IHt as [IHv IHp].
    pose proof (update_particle_gravity_only cfg sk pk masses i st pt
                  Hup Hi Hm (Hforce t sk pk (Nat.lt_succ_diag_r t) Hk)) as E.
    unfold step_particle in E.
    rewrite vec_at_predicted in E by assumption.
    simpl fst in E. simpl snd in E.
    pose proof (Hwall (S t) (conj (le_n_S _ _ (Nat.le_0_l t)) (Nat.le_refl _)))
      as Hin.
    rewrite S_INR in Hin.
    rewrite (bounce_inside cfg (HEIGHT cfg)) in E by (rewrite IHv; lra).
    injection E as Evel Epos.
    rewrite <- Evel, <- Epos. simpl fst. simpl snd.
    rewrite S_INR, IHv. split; [ring | lra].
Qed.

Lemma fall_bounds (k : nat) :
  (k <= 2)%nat ->
  display_radius (with_particles_gravity 1 (1 / 100)) 1
  <= 200 + GRAVITY (with_particles_gravity 1 (1 / 100)) * (INR k * INR k)
  <= HEIGHT (with_particles_gravity 1 (1 / 100))
     - display_radius (with_particles_gravity 1 (1 / 100)) 1.
Proof.
  intros Hk. rewrite single_display_radius.
  destruct k as [| [| [| k]]]; simpl; try lra. lia.
Qed.

Lemma fall_run :
  run (with_particles_gravity 1 (1 / 100)) 2 [(0, 0)] [(200, 200)] [1]
  = Ok ([(0, INR 2 * GRAVITY (with_particles_gravity 1 (1 / 100)))],
        [(200, 200 + GRAVITY (with_particles_gravity 1 (1 / 100))
                     * (INR 2 * INR 2))]).
Proof.
  apply single_fall_run.
  - reflexivity.
  - simpl. lra.
  - lra.
  - rewrite single_display_radius. simpl. lra.
  - apply fall_bounds.
Qed.

Lemma gravity_only_motion_witness :
  (0 < NUM_PARTICLES (with_particles_gravity 1 (1 / 100)))%nat /\
  0 < mass_at [1] 0 /\
  snd (vec_at [(0, 0)] 0) = 0 /\
  snd (vec_at [(0, INR 2 * GRAVITY (with_particles_gravity 1 (1 / 100)))] 0)
    = INR 2 * GRAVITY (with_particles_gravity 1 (1 / 100)) /\
  snd (vec_at [(200, 200 + GRAVITY (with_particles_gravity 1 (1 / 100))
                           * (INR 2 * INR 2))] 0)
  - snd (vec_at [(200, 200)] 0)
    = GRAVITY (with_particles_gravity 1 (1 / 100)) * (INR 2 * INR 2).
Proof.
  assert (Hi : (0 < NUM_PARTICLES (with_particles_gravity 1 (1 / 100)))%nat)
    by (simpl; lia).
  assert (Hm : 0 < mass_at [1] 0) by (unfold mass_at; simpl; lra).
  assert (Hv : snd (vec_at [(0, 0)] 0) = 0) by reflexivity.
  split; [exact Hi | split; [exact Hm | split; [exact Hv |]]].
  apply (gravity_only_motion (with_particles_gravity 1 (1 / 100))
           [(0, 0)] [(200, 200)] [1] 0 2 Hi Hm Hv).
  - intros k sk pk _ _. apply single_no_pressure_force. reflexivity.
  - intros k Hk. apply fall_bounds. lia.
  - exact fall_run.
Defined.

(** C2 as stated fails on the displacement: a single particle released
    at rest under gravity 1/100, far from the walls, has fallen by 4/100
    after two frames, not by [G * 2 * 3 / 2 = 3/100]. *)
Lemma gravity_only_displacement_counterexample :
  (forall speeds positions,
     no_pressure_force (with_particles_gravity 1 (1 / 100)) speeds positions
       [1] 0) /\
  run (with_particles_gravity 1 (1 / 100)) 2 [(0, 0)] [(200, 200)] [1]
    = Ok ([(0, 2 * (1 / 100))], [(200, 200 + 4 / 100)]) /\
  (200 + 4 / 100) - 200 <> 1 / 100 * 2 * (2 + 1) / 2.
Proof.
  split; [| split].
  - intros speeds positions. apply single_no_pressure_force. reflexivity.
  - rewrite fall_run. simpl. apply f_equal. apply f_equal2.
    + f_equal; apply f_equal2; lra.
    + f_equal; apply f_equal2; lra.
  - lra.
Qed.

(** * Two particles farther apart than the smoothing radius *)

Lemma calculate_distance_horizontal (x1 x2 y : R) :
  calculate_distance (x1, y) (x2, y) = Rabs (x1 - x2).
Proof.
  unfold calculate_distance. simpl fst. simpl snd.
  replace ((x1 - x2) ^ 2 + (y - y) ^ 2) with (Rsqr (x1 - x2))
    by (unfold Rsqr; ring).
  apply sqrt_Rsqr_abs.
Qed.

Lemma far_distance_01 :
  calculate_distance (100 + 0, 100 + 0) (140 + 0, 100 + 0) = 40.
Proof.
  rewrite calculate_distance_horizontal.
  unfold Rabs. destruct (Rcase_abs (100 + 0 - (140 + 0))); lra.
Qed.

Lemma far_distance_10 :
  calculate_distance (140 + 0, 100 + 0) (100 + 0, 100 + 0) = 40.
Proof.
  rewrite calculate_distance_horizontal.
  unfold Rabs. destruct (Rcase_abs (140 + 0 - (100 + 0))); lra.
Qed.

Lemma far_apart (i : nat) :
  (i < NUM_PARTICLES (with_particles_gravity 2 0))%nat ->
  apart (with_particles_gravity 2 0)
    (predicted (with_particles_gravity 2 0) far_speeds far_positions) i.
Proof.
  intros Hi j Hj Hne H. apply calculate_distance_zero_iff in H.
  simpl in Hi, Hj.
  destruct i as [| [| i]]; destruct j as [| [| j]]; try lia;
    unfold vec_at in H; simpl in H; injection H; intros; lra.
Qed.

Lemma far_pressure_0 :
  pressure_sum (with_particles_gravity 2 0)
    (vec_at (predicted (with_particles_gravity 2 0) far_speeds far_positions)
       0)
    (predicted (with_particles_gravity 2 0) far_speeds far_positions)
    far_masses = 1 / 15.
Proof.
  unfold pressure_sum, predicted, far_speeds, far_positions, far_masses,
    vec_at, mass_at.
  simpl.
  rewrite !calculate_distance_self. rewrite far_distance_01.
  rewrite (kernel_at_zero (with_particles_gravity 2 0) golden_radius).
  rewrite (kernel_outside (with_particles_gravity 2 0) golden_radius 40)
    by (simpl; lra).
  simpl. field.
Qed.

Lemma far_force_0 :
  (force_sum (with_particles_gravity 2 0) fst
     (predicted (with_particles_gravity 2 0) far_speeds far_positions)
     far_masses (1 / 15) 0,
   force_sum (with_particles_gravity 2 0) snd
     (predicted (with_particles_gravity 2 0) far_speeds far_positions)
     far_masses (1 / 15) 0)
  = (1 / 405000, 0).
Proof.
  unfold force_sum, others, pairwise_term, predicted, far_speeds,
    far_positions, far_masses, vec_at, mass_at.
  simpl.
  rewrite far_distance_01.
  unfold derivative. simpl.
  apply f_equal2; field.
Qed.

Lemma far_acceleration_0 :
  acceleration_spec (with_particles_gravity 2 0)
    (predicted (with_particles_gravity 2 0) far_speeds far_positions)
    far_masses 0 = (1 / 27000, 0).
Proof.
  unfold acceleration_spec, pressure_sum, force_sum, others, pairwise_term,
    predicted, far_speeds, far_positions, far_masses, vec_at, mass_at.
  simpl.
  rewrite !calculate_distance_self. rewrite far_distance_01.
  rewrite (kernel_at_zero (with_particles_gravity 2 0) golden_radius).
  rewrite (kernel_outside (with_particles_gravity 2 0) golden_radius 40)
    by (simpl; lra).
  unfold derivative. simpl.
  apply f_equal2; field.
Qed.

Lemma far_acceleration_1 :
  acceleration_spec (with_particles_gravity 2 0)
    (predicted (with_particles_gravity 2 0) far_speeds far_positions)
    far_masses 1 = (- (1 / 27000), 0).
Proof.
  unfold acceleration_spec, pressure_sum, force_sum, others, pairwise_term,
    predicted, far_speeds, far_positions, far_masses, vec_at, mass_at.
  simpl.
  rewrite !calculate_distance_self. rewrite far_distance_10.
  rewrite (kernel_at_zero (with_particles_gravity 2 0) golden_radius).
  rewrite (kernel_outside (with_particles_gravity 2 0) golden_radius 40)
    by (simpl; lra).
  unfold derivative. simpl.
  apply f_equal2; field.
Qed.

(** C1 (where the code departs from the claim).  With zero gravity and
    the two particles of [far_positions], whose predicted positions are
    40 apart while the smoothing radius is 30, the pressure estimated at
    particle 0 is 1/15, the pairwise pressure force [update] computes for
    it is (1/405000, 0) and the accelerations of the two particles are
    (1/27000, 0) and (-1/27000, 0): not zero, because
    [smoothing_derivative] has no cut at the smoothing radius. *)
Theorem far_pair_force_not_zero :
  GRAVITY (with_particles_gravity 2 0) = 0
  /\ SMOOTHING_RADIUS (with_particles_gravity 2 0)
     < calculate_distance
         (vec_at (predicted (with_particles_gravity 2 0) far_speeds
                    far_positions) 0)
         (vec_at (predicted (with_particles_gravity 2 0) far_speeds
                    far_positions) 1)
  /\ calculate_pressure (with_particles_gravity 2 0)
       (vec_at (predicted (with_particles_gravity 2 0) far_speeds
                  far_positions) 0)
       (predicted (with_particles_gravity 2 0) far_speeds far_positions)
       far_masses = Ok (1 / 15)
  /\ pressure_force_loop (with_particles_gravity 2 0) 0
       (predicted (with_particles_gravity 2 0) far_speeds far_positions)
       far_masses (1 / 15) = Ok (1 / 405000, 0)
  /\ accelerate (with_particles_gravity 2 0)
       (predicted (with_particles_gravity 2 0) far_speeds far_positions)
       far_masses = Ok [(1 / 27000, 0); (- (1 / 27000), 0)].
Proof.
  split; [reflexivity | split; [| split; [| split]]].
  - unfold predicted, far_speeds, far_positions, vec_at. simpl.
    rewrite far_distance_01. lra.
  - rewrite calculate_pressure_sum.
    + rewrite far_pressure_0. reflexivity.
    + simpl. lia.
    + simpl. lia.
    + simpl. lra.
  - rewrite pressure_force_loop_sum.
    + rewrite far_force_0. reflexivity.
    + simpl. lia.
    + simpl. lia.
    + simpl. lra.
    + simpl. lia.
    + apply far_apart. simpl. lia.
  - rewrite accelerate_predicted.
    + simpl map. rewrite far_acceleration_0, far_acceleration_1. reflexivity.
    + simpl. lia.
    + exact golden_radius.
    + exact unit_masses_pos.
    + exact far_apart.
Qed.

(** * Further properties of [update] *)

(** ** List lengths *)

Lemma acceleration_of_masses_long (cfg : Config) (i : nat)
    (snapshot : list Vec2) (masses : list R) (a : Vec2) :
  acceleration_of cfg i snapshot masses = Ok a ->
  (NUM_PARTICLES cfg <= length masses)%nat.
Proof.
  intros H. unfold acceleration_of in H.
  apply bind_ok_inv in H. destruct H as [pi [_ H]].
  apply bind_ok_inv in H. destruct H as [P [HP _]].
  apply long_enough. intros j Hj. apply in_range in Hj.
  destruct (for_range_bodies_ok _ _ _ _ HP j Hj) as [s1 [s2 Hb]].
  apply bind_ok_inv in Hb. destruct Hb as [p [_ Hb]].
  apply bind_ok_inv in Hb. destruct Hb as [k [_ Hb]].
  apply bind_ok_inv in Hb. destruct Hb as [m [Hm _]].
  eapply getitem_ok_inv. eassumption.
Qed.

(** X1.  When [update] returns, each of its three arguments has at least
    [NUM_PARTICLES] entries and each of the two lists returned has exactly
    [NUM_PARTICLES] entries, whatever the lengths of the arguments. *)
Theorem update_returns_lengths (cfg : Config) (speeds positions : list Vec2)
    (masses : list R) (new_speeds new_positions : list Vec2) :
  update cfg speeds positions masses = Ok (new_speeds, new_positions) ->
  (NUM_PARTICLES cfg <= length speeds)%nat
  /\ (NUM_PARTICLES cfg <= length positions)%nat
  /\ (NUM_PARTICLES cfg <= length masses)%nat
  /\ length new_speeds = NUM_PARTICLES cfg
  /\ length new_positions = NUM_PARTICLES cfg.
Proof.
  intros Hup.
  destruct (update_inv _ _ _ _ _ _ Hup) as [accs [Hs [Hp [Hacc Hint]]]].
  destruct (accelerate_inv _ _ _ _ Hacc) as [_ Hai].
  destruct (integrate_inv _ _ _ _ _ _ _ Hint) as [Hls [Hlp _]].
  repeat split; try assumption.
  apply long_enough. intros i Hi.
  pose proof (acceleration_of_masses_long _ _ _ _ _ (Hai i Hi)). lia.
Qed.

Lemma update_returns_lengths_witness :
  update (with_particles_gravity 2 0) golden_speeds golden_positions
    golden_masses
  = Ok (next_state (with_particles_gravity 2 0) golden_speeds golden_positions
          golden_masses)
  /\ length (fst (next_state (with_particles_gravity 2 0) golden_speeds
                    golden_positions golden_masses)) = 2%nat.
Proof.
  assert (Hup :
    update (with_particles_gravity 2 0) golden_speeds golden_positions
      golden_masses
    = Ok (next_state (with_particles_gravity 2 0) golden_speeds
            golden_positions golden_masses)).
  { apply update_eq.
    - apply Nat.le_refl.
    - apply Nat.le_refl.
    - apply Nat.le_refl.
    - exact golden_radius.
    - exact unit_masses_pos.
    - exact golden_apart. }
  split; [exact Hup |].
  exact (proj1 (proj2 (proj2 (proj2
    (update_returns_lengths (with_particles_gravity 2 0) golden_speeds
       golden_positions golden_masses _ _ Hup))))).
Defined.

(** ** Lists that are too short *)

Lemma getitem_ok_or_raises {A : Type} (l : list A) (i : nat) :
  ok_or_raises IndexError (getitem l i).
Proof. unfold getitem. destruct (nth_error l i); simpl; auto. Qed.

Lemma getitem_short {A : Type} (l : list A) (i : nat) :
  (length l <= i)%nat -> getitem l i = Raise IndexError.
Proof.
  intros H. unfold getitem.
  apply nth_error_None in H. rewrite H. reflexivity.
Qed.

Lemma comprehension_raises {A : Type} (e : exception) (idx : list nat)
    (f : nat -> result A) (k : nat) :
  (forall j, In j idx -> ok_or_raises e (f j)) ->
  In k idx -> f k = Raise e ->
  comprehension idx f = Raise e.
Proof.
  induction idx as [| j rest IH]; intros Hall Hk Hraise.
  - destruct Hk.
  - simpl. destruct Hk as [-> | Hk].
    + rewrite Hraise. reflexivity.
    + apply raises_bind.
      * apply Hall. left. reflexivity.
      * intros a. rewrite IH; try assumption.
        -- reflexivity.
        -- intros; apply Hall; right; assumption.
Qed.

Lemma predict_short (cfg : Config) (speeds positions : list Vec2) :
  (length positions < NUM_PARTICLES cfg)%nat
  \/ (length speeds < NUM_PARTICLES cfg)%nat ->
  predict cfg speeds positions = Raise IndexError.
Proof.
  intros Hshort. unfold predict.
  assert (Hall : forall j,
            ok_or_raises IndexError
              (p <- getitem positions j ;;
               s <- getitem speeds j ;;
               Ok (fst p + fst s, snd p + snd s))).
  { intros j.
    apply ok_or_raises_bind; [apply getitem_ok_or_raises | intros p].
    apply ok_or_raises_bind; [apply getitem_ok_or_raises | intros s].
    exact I. }
  destruct (Nat.lt_ge_cases (length positions) (NUM_PARTICLES cfg))
    as [Hp | Hp].
  - apply comprehension_raises with (k := length positions).
    + intros j _. apply Hall.
    + apply in_range. assumption.
    + rewrite getitem_short by apply Nat.le_refl. reflexivity.
  - destruct Hshort as [Hp' | Hs]; [lia |].
    apply comprehension_raises with (k := length speeds).
    + intros j _. apply Hall.
    + apply in_range. assumption.
    + apply raises_bind; [apply getitem_ok_or_raises | intros p].
      rewrite getitem_short by apply Nat.le_refl. reflexivity.
Qed.

(** X2.  When the list of positions or the list of speeds has fewer than
    [NUM_PARTICLES] entries, [update] raises [IndexError]. *)
Theorem update_short_state_raises (cfg : Config)
    (speeds positions : list Vec2) (masses : list R) :
  (length positions < NUM_PARTICLES cfg)%nat
  \/ (length speeds < NUM_PARTICLES cfg)%nat ->
  update cfg speeds positions masses = Raise IndexError.
Proof.
  intros Hshort. unfold update.
  rewrite predict_short by assumption. reflexivity.
Qed.

Lemma update_short_state_raises_witness :
  ((length [(1, 1)] < NUM_PARTICLES (with_particles_gravity 2 0))%nat
   \/ (length [(0, 0); (0, 0)]
       < NUM_PARTICLES (with_particles_gravity 2 0))%nat) /\
  update (with_particles_gravity 2 0) [(0, 0); (0, 0)] [(1, 1)] [1; 1]
  = Raise IndexError.
Proof.
  assert (H : (length [(1, 1)]
               < NUM_PARTICLES (with_particles_gravity 2 0))%nat
              \/ (length [(0, 0); (0, 0)]
                  < NUM_PARTICLES (with_particles_gravity 2 0))%nat)
    by (left; simpl; lia).
  split; [exact H |].
  exact (update_short_state_raises (with_particles_gravity 2 0)
           [(0, 0); (0, 0)] [(1, 1)] [1; 1] H).
Defined.

Lemma calculate_pressure_short_masses (cfg : Config) (point : Vec2)
    (snapshot : list Vec2) (masses : list R) :
  SMOOTHING_RADIUS cfg <> 0 ->
  (NUM_PARTICLES cfg <= length snapshot)%nat ->
  (length masses < NUM_PARTICLES cfg)%nat ->
  calculate_pressure cfg point snapshot masses = Raise IndexError.
Proof.
  intros Hh Hs Hm. unfold calculate_pressure.
  apply for_range_raises with (k := length masses).
  - intros j s Hj. apply in_range in Hj.
    rewrite (getitem_nth snapshot j (0, 0)) by lia. simpl bind.
    rewrite smoothing_function_kernel by assumption. simpl bind.
    apply ok_or_raises_bind; [apply getitem_ok_or_raises | intros m].
    exact I.
  - apply in_range. assumption.
  - intros s.
    rewrite (getitem_nth snapshot (length masses) (0, 0)) by lia. simpl bind.
    rewrite smoothing_function_kernel by assumption. simpl bind.
    rewrite getitem_short by apply Nat.le_refl. reflexivity.
Qed.

Lemma range_cons (n : nat) :
  (0 < n)%nat -> range n = 0%nat :: seq 1 (n - 1).
Proof.
  intros Hn. unfold range. destruct n as [| n]; [lia |].
  simpl. rewrite Nat.sub_0_r. reflexivity.
Qed.

(** X3.  With a nonzero smoothing radius and enough speeds and positions,
    a list of masses with fewer than [NUM_PARTICLES] entries makes
    [update] raise [IndexError]: the pressure at the first particle
    already reads every mass. *)
Theorem update_short_masses_raises (cfg : Config)
    (speeds positions : list Vec2) (masses : list R) :
  SMOOTHING_RADIUS cfg <> 0 ->
  (NUM_PARTICLES cfg <= length speeds)%nat ->
  (NUM_PARTICLES cfg <= length positions)%nat ->
  (length masses < NUM_PARTICLES cfg)%nat ->
  update cfg speeds positions masses = Raise IndexError.
Proof.
  intros Hh Hs Hp Hm. unfold update.
  rewrite predict_eq by assumption. simpl bind.
  unfold accelerate.
  rewrite (range_cons (NUM_PARTICLES cfg)) by lia.
  simpl for_range. unfold acceleration_of.
  rewrite (getitem_nth _ 0 (0, 0)) by (rewrite length_predicted; lia).
  simpl bind.
  rewrite calculate_pressure_short_masses;
    [reflexivity | assumption
     | rewrite length_predicted; apply Nat.le_refl | assumption].
Qed.

Lemma update_short_masses_raises_witness :
  SMOOTHING_RADIUS (with_particles_gravity 2 0) <> 0 /\
  (length [1] < NUM_PARTICLES (with_particles_gravity 2 0))%nat /\
  update (with_particles_gravity 2 0) golden_speeds golden_positions [1]
  = Raise IndexError.
Proof.
  assert (Hh : SMOOTHING_RADIUS (with_particles_gravity 2 0) <> 0)
    by (simpl; lra).
  assert (Hm : (length [1] < NUM_PARTICLES (with_particles_gravity 2 0))%nat)
    by (simpl; lia).
  split; [exact Hh | split; [exact Hm |]].
  exact (update_short_masses_raises (with_particles_gravity 2 0)
           golden_speeds golden_positions [1] Hh (Nat.le_refl 2)
           (Nat.le_refl 2) Hm).
Defined.

(** ** A negative mass *)

Lemma pow_third_ok_or_raises (m : R) : ok_or_raises TypeError (pow_third m).
Proof.
  unfold pow_third.
  destruct (Rlt_dec 0 m); [exact I |].
  destruct (Req_dec_T m 0); simpl; auto.
Qed.

Lemma pow_third_negative (m : R) : m < 0 -> pow_third m = Raise TypeError.
Proof.
  intros Hm. unfold pow_third.
  destruct (Rlt_dec 0 m); [lra |].
  destruct (Req_dec_T m 0); [lra | reflexivity].
Qed.

Lemma integrate_one_ok_or_raises (cfg : Config) (i : nat)
    (speeds snapshot accelerations : list Vec2) (masses : list R) :
  (i < length speeds)%nat -> (i < length snapshot)%nat ->
  (i < length accelerations)%nat -> (i < length masses)%nat ->
  ok_or_raises TypeError
    (integrate_one cfg i speeds snapshot accelerations masses).
Proof.
  intros Hs Hp Ha Hm. unfold integrate_one.
  rewrite (getitem_nth speeds i (0, 0)) by assumption. simpl bind.
  rewrite (getitem_nth accelerations i (0, 0)) by assumption. simpl bind.
  rewrite (getitem_nth snapshot i (0, 0)) by assumption. simpl bind.
  rewrite (getitem_nth masses i 0) by assumption. simpl bind.
  apply ok_or_raises_bind; [apply pow_third_ok_or_raises | intros c].
  destruct (bounce cfg (WIDTH cfg) _ _ _) as [px sx].
  destruct (bounce cfg (HEIGHT cfg) _ _ _) as [py sy].
  exact I.
Qed.

Lemma integrate_one_negative (cfg : Config) (i : nat)
    (speeds snapshot accelerations : list Vec2) (masses : list R) :
  (i < length speeds)%nat -> (i < length snapshot)%nat ->
  (i < length accelerations)%nat -> (i < length masses)%nat ->
  mass_at masses i < 0 ->
  integrate_one cfg i speeds snapshot accelerations masses = Raise TypeError.
Proof.
  intros Hs Hp Ha Hm Hneg. unfold integrate_one.
  rewrite (getitem_nth speeds i (0, 0)) by assumption. simpl bind.
  rewrite (getitem_nth accelerations i (0, 0)) by assumption. simpl bind.
  rewrite (getitem_nth snapshot i (0, 0)) by assumption. simpl bind.
  rewrite (getitem_nth masses i 0) by assumption. simpl bind.
  fold (mass_at masses i).
  rewrite pow_third_negative by assumption. reflexivity.
Qed.

(** The loop that fills two lists raises [e] when one of the values to
    write raises [e] and the others return or raise [e]. *)
Lemma for_range_fill_raises {A B : Type} (za : A) (zb : B) (e : exception)
    (body : nat -> list A * list B -> result (list A * list B))
    (F : nat -> result (A * B)) (n : nat) :
  forall (k : nat) (da : list A) (db : list B),
    length da = k -> length db = k ->
    (forall i out, (k <= i < k + n)%nat ->
       body i out =
       (sp <- F i ;;
        la <- setitem (fst out) i (fst sp) ;;
        lb <- setitem (snd out) i (snd sp) ;;
        Ok (la, lb))) ->
    (forall i, (k <= i < k + n)%nat -> ok_or_raises e (F i)) ->
    forall bad, (k <= bad < k + n)%nat -> F bad = Raise e ->
    for_range (seq k n) body (da ++ repeat za n, db ++ repeat zb n) = Raise e.
Proof.
  induction n as [| n IH]; intros k da db Ha Hb Hbody Hall bad Hbad Hraise.
  - lia.
  - simpl. rewrite Hbody by lia.
    destruct (F k) as [sp | e'] eqn:Hk.
    + simpl bind.
      rewrite <- Ha at 1. rewrite setitem_app. simpl bind.
      rewrite <- Hb at 1. rewrite setitem_app. simpl bind.
      replace (da ++ fst sp :: repeat za n)
        with ((da ++ [fst sp]) ++ repeat za n)
        by (rewrite <- app_assoc; reflexivity).
      replace (db ++ snd sp :: repeat zb n)
        with ((db ++ [snd sp]) ++ repeat zb n)
        by (rewrite <- app_assoc; reflexivity).
      apply IH with (bad := bad).
      * rewrite length_app. simpl. lia.
      * rewrite length_app. simpl. lia.
      * intros i out Hi. apply Hbody. lia.
      * intros i Hi. apply Hall. lia.
      * assert (bad <> k) by (intros ->; congruence). lia.
      * assumption.
    + simpl bind. pose proof (Hall k ltac:(lia)) as Hok.
      rewrite Hk in Hok. simpl in Hok. rewrite Hok. reflexivity.
Qed.

Lemma integrate_raises (cfg : Config) (e : exception)
    (speeds snapshot accelerations : list Vec2) (masses : list R)
    (bad : nat) :
  (forall i, (i < NUM_PARTICLES cfg)%nat ->
     ok_or_raises e
       (integrate_one cfg i speeds snapshot accelerations masses)) ->
  (bad < NUM_PARTICLES cfg)%nat ->
  integrate_one cfg bad speeds snapshot accelerations masses = Raise e ->
  integrate cfg speeds snapshot accelerations masses = Raise e.
Proof.
  intros Hall Hbad Hraise. unfold integrate, range.
  apply (for_range_fill_raises (0, 0) (0, 0) e _
           (fun i => integrate_one cfg i speeds snapshot accelerations masses)
           (NUM_PARTICLES cfg) 0 [] []) with (bad := bad);
    try reflexivity; try assumption; try lia.
  intros i Hi. apply Hall. lia.
Qed.

(** X4.  When the accelerations of a frame have been computed and some
    particle has a negative mass, [update] raises [TypeError]: the cube
    root of the mass is a complex number, which the wall test cannot
    compare with a position. *)
Theorem negative_mass_raises (cfg : Config) (speeds positions : list Vec2)
    (masses : list R) (snapshot accelerations : list Vec2) (i : nat) :
  predict cfg speeds positions = Ok snapshot ->
  accelerate cfg snapshot masses = Ok accelerations ->
  (i < NUM_PARTICLES cfg)%nat ->
  mass_at masses i < 0 ->
  update cfg speeds positions masses = Raise TypeError.
Proof.
  intros Hpred Hacc Hi Hneg.
  destruct (predict_inv cfg _ _ _ Hpred) as [Hs [Hp Hsnap]].
  destruct (accelerate_inv cfg _ _ _ Hacc) as [Hla Hai].
  pose proof (acceleration_of_masses_long _ _ _ _ _ (Hai i Hi)) as Hm.
  assert (Hls : length snapshot = NUM_PARTICLES cfg)
    by (rewrite Hsnap; apply length_predicted).
  unfold update. rewrite Hpred. simpl bind. rewrite Hacc. simpl bind.
  apply integrate_raises with (bad := i).
  - intros j Hj. apply integrate_one_ok_or_raises; lia.
  - assumption.
  - apply integrate_one_negative; try lia. assumption.
Qed.

Lemma lone_negative_accelerate :
  accelerate (with_particles_gravity 1 0)
    (predicted (with_particles_gravity 1 0) [(0, 0)] [(200, 200)]) [-1]
  = Ok (map (acceleration_spec (with_particles_gravity 1 0)
               (predicted (with_particles_gravity 1 0) [(0, 0)] [(200, 200)])
               [-1])
          (range 1)).
Proof.
  apply accelerate_spec.
  - simpl. lia.
  - simpl. lia.
  - simpl. lra.
  - intros i Hi j Hj Hne. simpl in Hi, Hj. lia.
  - intros i Hi. simpl in Hi. replace i with 0%nat by lia.
    unfold pressure_sum, predicted, vec_at, mass_at. simpl.
    rewrite calculate_distance_self.
    rewrite (kernel_at_zero (with_particles_gravity 1 0))
      by (simpl; lra).
    simpl. lra.
Qed.

Lemma negative_mass_raises_witness :
  (0 < NUM_PARTICLES (with_particles_gravity 1 0))%nat /\
  mass_at [-1] 0 < 0 /\
  update (with_particles_gravity 1 0) [(0, 0)] [(200, 200)] [-1]
  = Raise TypeError.
Proof.
  assert (Hi : (0 < NUM_PARTICLES (with_particles_gravity 1 0))%nat)
    by (simpl; lia).
  assert (Hm : mass_at [-1] 0 < 0) by (unfold mass_at; simpl; lra).
  split; [exact Hi | split; [exact Hm |]].
  apply (negative_mass_raises (with_particles_gravity 1 0)
           [(0, 0)] [(200, 200)] [-1] _ _ 0
           (predict_eq (with_particles_gravity 1 0) [(0, 0)] [(200, 200)]
              (Nat.le_refl 1) (Nat.le_refl 1))
           lone_negative_accelerate Hi Hm).
Defined.

(** ** Walls *)

Lemma bounce_position_inside (cfg : Config) (extent r x v : R) :
  r <= extent - r ->
  r <= fst (bounce cfg extent r x v) <= extent - r.
Proof.
  intros Hfit. unfold bounce.
  replace (0 + r) with r by ring.
  destruct (Rlt_dec x r) as [Hlow | Hlow]; simpl.
  - lra.
  - destruct (Rgt_dec x (extent - r)) as [Hhigh | Hhigh]; simpl; lra.
Qed.

Lemma bounce_speed_bound (cfg : Config) (extent r x v : R) :
  0 <= WALL_MULT cfg <= 1 ->
  Rabs (snd (bounce cfg extent r x v)) <= Rabs v.
Proof.
  intros Hw.
  assert (Hflip : Rabs (v * - WALL_MULT cfg) <= Rabs v).
  { rewrite Rabs_mult, Rabs_Ropp.
    rewrite (Rabs_pos_eq (WALL_MULT cfg)) by lra.
    pose proof (Rabs_pos v). nra. }
  unfold bounce.
  destruct (Rlt_dec x (0 + r)); simpl; [exact Hflip |].
  destruct (Rgt_dec x (extent - r)); simpl; [exact Hflip | lra].
Qed.

(** What a frame that returned did to one particle of positive mass. *)
Lemma update_particle (cfg : Config) (speeds positions : list Vec2)
    (masses : list R) (i : nat) (new_speeds new_positions : list Vec2) :
  update cfg speeds positions masses = Ok (new_speeds, new_positions) ->
  (i < NUM_PARTICLES cfg)%nat ->
  0 < mass_at masses i ->
  exists a,
    acceleration_of cfg i (predicted cfg speeds positions) masses = Ok a
    /\ step_particle cfg (vec_at speeds i)
         (vec_at (predicted cfg speeds positions) i) a (mass_at masses i)
       = (vec_at new_speeds i, vec_at new_positions i).
Proof.
  intros Hup Hi Hm.
  destruct (update_inv _ _ _ _ _ _ Hup) as [accs [Hs [Hp [Hacc Hint]]]].
  destruct (accelerate_inv _ _ _ _ Hacc) as [Hla Hai].
  destruct (integrate_inv _ _ _ _ _ _ _ Hint) as [_ [_ Hii]].
  specialize (Hii i Hi).
  exists (vec_at accs i). split; [apply Hai; assumption |].
  destruct (integrate_one_lengths _ _ _ _ _ _ _ Hii) as [L1 [L2 [L3 L4]]].
  rewrite integrate_one_eq in Hii by assumption. congruence.
Qed.

Lemma update_inside_walls (cfg : Config) (speeds positions : list Vec2)
    (masses : list R) (i : nat) (new_speeds new_positions : list Vec2) :
  update cfg speeds positions masses = Ok (new_speeds, new_positions) ->
  (i < NUM_PARTICLES cfg)%nat ->
  0 < mass_at masses i ->
  (display_radius cfg (mass_at masses i)
   <= WIDTH cfg - display_radius cfg (mass_at masses i) ->
   display_radius cfg (mass_at masses i) <= fst (vec_at new_positions i)
   <= WIDTH cfg - display_radius cfg (mass_at masses i))
  /\ (display_radius cfg (mass_at masses i)
      <= HEIGHT cfg - display_radius cfg (mass_at masses i) ->
      display_radius cfg (mass_at masses i) <= snd (vec_at new_positions i)
      <= HEIGHT cfg - display_radius cfg (mass_at masses i)).
Proof.
  intros Hup Hi Hm.
  destruct (update_particle _ _ _ _ _ _ _ Hup Hi Hm) as [a [_ E]].
  unfold step_particle in E. injection E as _ Epos.
  rewrite <- Epos. simpl fst. simpl snd.
  split; intros Hfit; apply bounce_position_inside; assumption.
Qed.

(** X5.  After any positive number of frames that returned, every
    particle of positive mass that fits between two opposite walls (its
    display radius is at most half the extent) lies between them, at
    least its display radius away from each: this holds wherever the
    particles started. *)
Theorem run_keeps_inside_walls (cfg : Config) (speeds positions : list Vec2)
    (masses : list R) (t i : nat) (st pt : list Vec2) :
  run cfg (S t) speeds positions masses = Ok (st, pt) ->
  (i < NUM_PARTICLES cfg)%nat ->
  0 < mass_at masses i ->
  (display_radius cfg (mass_at masses i)
   <= WIDTH cfg - display_radius cfg (mass_at masses i) ->
   display_radius cfg (mass_at masses i) <= fst (vec_at pt i)
   <= WIDTH cfg - display_radius cfg (mass_at masses i))
  /\ (display_radius cfg (mass_at masses i)
      <= HEIGHT cfg - display_radius cfg (mass_at masses i) ->
      display_radius cfg (mass_at masses i) <= snd (vec_at pt i)
      <= HEIGHT cfg - display_radius cfg (mass_at masses i)).
Proof.
  intros Hrun Hi Hm. rewrite run_snoc in Hrun.
  apply bind_ok_inv in Hrun. destruct Hrun as [[sk pk] [_ Hup]].
  simpl fst in Hup. simpl snd in Hup.
  apply (update_inside_walls cfg sk pk masses i st pt Hup Hi Hm).
Qed.

Lemma wall_start_run :
  run (with_particles_gravity 1 0) 1 [(0, 0)] [(0, 0)] [1]
  = Ok ([(0, 0)], [(5, 5)]).
Proof.
  simpl run.
  rewrite update_single by (reflexivity || (simpl; lra) || lra).
  simpl bind. unfold step_particle, bounce.
  rewrite single_display_radius. simpl.
  destruct (Rlt_dec (0 + 0 + (0 + 0)) (0 + 5)) as [_ | C]; [| lra].
  simpl. apply f_equal. apply f_equal2.
  - f_equal; apply f_equal2; lra.
  - f_equal; apply f_equal2; lra.
Qed.

Lemma run_keeps_inside_walls_witness :
  (0 < NUM_PARTICLES (with_particles_gravity 1 0))%nat /\
  0 < mass_at [1] 0 /\
  (display_radius (with_particles_gravity 1 0) (mass_at [1] 0)
   <= WIDTH (with_particles_gravity 1 0)
      - display_radius (with_particles_gravity 1 0) (mass_at [1] 0) ->
   display_radius (with_particles_gravity 1 0) (mass_at [1] 0)
   <= fst (vec_at [(5, 5)] 0)
   <= WIDTH (with_particles_gravity 1 0)
      - display_radius (with_particles_gravity 1 0) (mass_at [1] 0)).
Proof.
  assert (Hi : (0 < NUM_PARTICLES (with_particles_gravity 1 0))%nat)
    by (simpl; lia).
  assert (Hm : 0 < mass_at [1] 0) by (unfold mass_at; simpl; lra).
  split; [exact Hi | split; [exact Hm |]].
  exact (proj1 (run_keeps_inside_walls (with_particles_gravity 1 0)
                  [(0, 0)] [(0, 0)] [1] 0 0 [(0, 0)] [(5, 5)]
                  wall_start_run Hi Hm)).
Defined.

(** X6.  With [WALL_MULT] between 0 and 1, the walls never speed a
    particle up: on each axis the speed a frame returns for a particle of
    positive mass is at most, in absolute value, its old speed plus its
    acceleration. *)
Theorem walls_never_speed_up (cfg : Config) (speeds positions : list Vec2)
    (masses : list R) (i : nat) (new_speeds new_positions : list Vec2) :
  0 <= WALL_MULT cfg <= 1 ->
  update cfg speeds positions masses = Ok (new_speeds, new_positions) ->
  (i < NUM_PARTICLES cfg)%nat ->
  0 < mass_at masses i ->
  exists a,
    acceleration_of cfg i (predicted cfg speeds positions) masses = Ok a
    /\ Rabs (fst (vec_at new_speeds i)) <= Rabs (fst (vec_at speeds i) + fst a)
    /\ Rabs (snd (vec_at new_speeds i)) <= Rabs (snd (vec_at speeds i) + snd a).
Proof.
  intros Hw Hup Hi Hm.
  destruct (update_particle _ _ _ _ _ _ _ Hup Hi Hm) as [a [Ha E]].
  exists a. split; [exact Ha |].
  unfold step_particle in E. injection E as Evel _.
  rewrite <- Evel. simpl fst. simpl snd.
  split; apply bounce_speed_bound; assumption.
Qed.

Lemma wall_start_update :
  update (with_particles_gravity 1 0) [(0, 0)] [(0, 0)] [1]
  = Ok ([(0, 0)], [(5, 5)]).
Proof.
  pose proof wall_start_run as H. simpl run in H.
  destruct (update (with_particles_gravity 1 0) [(0, 0)] [(0, 0)] [1])
    as [[s p] | e]; simpl in H; [exact H | discriminate].
Qed.

Lemma walls_never_speed_up_witness :
  0 <= WALL_MULT (with_particles_gravity 1 0) <= 1 /\
  (0 < NUM_PARTICLES (with_particles_gravity 1 0))%nat /\
  0 < mass_at [1] 0 /\
  exists a,
    acceleration_of (with_particles_gravity 1 0) 0
      (predicted (with_particles_gravity 1 0) [(0, 0)] [(0, 0)]) [1] = Ok a
    /\ Rabs (fst (vec_at [(0, 0)] 0)) <= Rabs (fst (vec_at [(0, 0)] 0) + fst a)
    /\ Rabs (snd (vec_at [(0, 0)] 0)) <= Rabs (snd (vec_at [(0, 0)] 0) + snd a).
Proof.
  assert (Hw : 0 <= WALL_MULT (with_particles_gravity 1 0) <= 1)
    by (simpl; lra).
  assert (Hi : (0 < NUM_PARTICLES (with_particles_gravity 1 0))%nat)
    by (simpl; lia).
  assert (Hm : 0 < mass_at [1] 0) by (unfold mass_at; simpl; lra).
  split; [exact Hw | split; [exact Hi | split; [exact Hm |]]].
  exact (walls_never_speed_up (with_particles_gravity 1 0)
           [(0, 0)] [(0, 0)] [1] 0 [(0, 0)] [(5, 5)]
           Hw wall_start_update Hi Hm).
Defined.

(** ** [calculate_distance] *)

Lemma calculate_distance_sym (p q : Vec2) :
  calculate_distance p q = calculate_distance q p.
Proof. unfold calculate_distance. f_equal. ring. Qed.

Lemma sum_squares_nonneg (a b : R) : 0 <= a ^ 2 + b ^ 2.
Proof. apply Rplus_le_le_0_compat; apply pow2_ge_0. Qed.

Lemma sqrt_sum_squares_sqr (a b : R) :
  sqrt (a ^ 2 + b ^ 2) * sqrt (a ^ 2 + b ^ 2) = a ^ 2 + b ^ 2.
Proof. apply sqrt_sqrt. apply sum_squares_nonneg. Qed.

Lemma cauchy_schwarz_plane (a b c e : R) :
  a * c + b * e <= sqrt (a ^ 2 + b ^ 2) * sqrt (c ^ 2 + e ^ 2).
Proof.
  set (A := sqrt (a ^ 2 + b ^ 2)). set (C := sqrt (c ^ 2 + e ^ 2)).
  assert (HA : 0 <= A) by apply sqrt_pos.
  assert (HC : 0 <= C) by apply sqrt_pos.
  assert (HAA : A * A = a ^ 2 + b ^ 2) by apply sqrt_sum_squares_sqr.
  assert (HCC : C * C = c ^ 2 + e ^ 2) by apply sqrt_sum_squares_sqr.
  apply Rsqr_incr_0_var; [| apply Rmult_le_pos; assumption].
  unfold Rsqr.
  replace (A * C * (A * C)) with ((A * A) * (C * C)) by ring.
  rewrite HAA, HCC.
  pose proof (pow2_ge_0 (a * e - b * c)) as Hsq.
  simpl in Hsq. simpl. nra.
Qed.

Lemma triangle_plane (a b c e : R) :
  sqrt ((a + c) ^ 2 + (b + e) ^ 2)
  <= sqrt (a ^ 2 + b ^ 2) + sqrt (c ^ 2 + e ^ 2).
Proof.
  pose proof (cauchy_schwarz_plane a b c e) as Hcs.
  set (A := sqrt (a ^ 2 + b ^ 2)) in *.
  set (C := sqrt (c ^ 2 + e ^ 2)) in *.
  assert (HA : 0 <= A) by apply sqrt_pos.
  assert (HC : 0 <= C) by apply sqrt_pos.
  assert (HAA : A * A = a ^ 2 + b ^ 2) by apply sqrt_sum_squares_sqr.
  assert (HCC : C * C = c ^ 2 + e ^ 2) by apply sqrt_sum_squares_sqr.
  apply Rsqr_incr_0_var; [| lra].
  rewrite Rsqr_sqrt by apply sum_squares_nonneg.
  unfold Rsqr.
  replace ((A + C) * (A + C)) with (A * A + 2 * (A * C) + C * C) by ring.
  rewrite HAA, HCC. simpl. simpl in Hcs. nra.
Qed.

(** X7.  Over the reals, [calculate_distance] is never negative, does
    not depend on the order of its two points, is 0 between a point and
    itself, and satisfies the triangle inequality. *)
Theorem calculate_distance_triangle (p q r : Vec2) :
  0 <= calculate_distance p q
  /\ calculate_distance p q = calculate_distance q p
  /\ calculate_distance p p = 0
  /\ calculate_distance p r
     <= calculate_distance p q + calculate_distance q r.
Proof.
  split; [apply calculate_distance_nonneg |].
  split; [apply calculate_distance_sym |].
  split; [apply calculate_distance_self |].
  unfold calculate_distance.
  replace (fst p - fst r) with ((fst p - fst q) + (fst q - fst r)) by ring.
  replace (snd p - snd r) with ((snd p - snd q) + (snd q - snd r)) by ring.
  apply triangle_plane.
Qed.

(** ** Loops with equal bodies *)

Lemma for_range_ext {S : Type} (idx : list nat)
    (body body' : nat -> S -> result S) :
  (forall i s, In i idx -> body i s = body' i s) ->
  forall s, for_range idx body s = for_range idx body' s.
Proof.
  induction idx as [| i rest IH]; intros Hext s; simpl.
  - reflexivity.
  - rewrite Hext by (left; reflexivity).
    destruct (body' i s) as [s' | e]; simpl; [| reflexivity].
    apply IH. intros; apply Hext; right; assumption.
Qed.

Lemma comprehension_ext {A : Type} (idx : list nat)
    (f f' : nat -> result A) :
  (forall i, In i idx -> f i = f' i) ->
  comprehension idx f = comprehension idx f'.
Proof.
  induction idx as [| i rest IH]; intros Hext; simpl.
  - reflexivity.
  - rewrite Hext by (left; reflexivity).
    rewrite IH by (intros; apply Hext; right; assumption).
    reflexivity.
Qed.

(** ** Translations *)

Lemma getitem_map {A B : Type} (f : A -> B) (l : list A) (i : nat) :
  getitem (map f l) i = (a <- getitem l i ;; Ok (f a)).
Proof.
  unfold getitem. rewrite nth_error_map.
  destruct (nth_error l i); reflexivity.
Qed.

Lemma calculate_distance_translate (d p q : Vec2) :
  calculate_distance (translate d p) (translate d q)
  = calculate_distance p q.
Proof.
  unfold calculate_distance, translate. simpl fst. simpl snd.
  f_equal. ring.
Qed.

Section Translation.

Variable cfg : Config.
Variable d : Vec2.
Variables (snapshot : list Vec2) (masses : list R).

Lemma calculate_pressure_translate (point : Vec2) :
  calculate_pressure cfg (translate d point) (map (translate d) snapshot)
    masses
  = calculate_pressure cfg point snapshot masses.
Proof.
  unfold calculate_pressure. apply for_range_ext.
  intros i s _. rewrite getitem_map.
  destruct (getitem snapshot i) as [p | e]; simpl; [| reflexivity].
  rewrite calculate_distance_translate. reflexivity.
Qed.

Lemma pressure_force_loop_translate (i : nat) (P : R) :
  pressure_force_loop cfg i (map (translate d) snapshot) masses P
  = pressure_force_loop cfg i snapshot masses P.
Proof.
  unfold pressure_force_loop. apply for_range_ext.
  intros j s _. destruct (Nat.eqb i j); [reflexivity |].
  rewrite !getitem_map.
  destruct (getitem snapshot i) as [p | e]; simpl; [| reflexivity].
  destruct (getitem snapshot j) as [q | e]; simpl; [| reflexivity].
  rewrite calculate_distance_translate.
  replace (fst p + fst d - (fst q + fst d)) with (fst p - fst q) by ring.
  replace (snd p + snd d - (snd q + snd d)) with (snd p - snd q) by ring.
  reflexivity.
Qed.

Lemma acceleration_of_translate (i : nat) :
  acceleration_of cfg i (map (translate d) snapshot) masses
  = acceleration_of cfg i snapshot masses.
Proof.
  unfold acceleration_of. rewrite getitem_map.
  destruct (getitem snapshot i) as [p | e]; simpl; [| reflexivity].
  rewrite calculate_pressure_translate.
  destruct (calculate_pressure cfg p snapshot masses) as [P | e]; simpl;
    [| reflexivity].
  rewrite pressure_force_loop_translate. reflexivity.
Qed.

End Translation.

(** X8.  The pressures and the accelerations of a frame depend on the
    positions only through their differences: moving the query point and
    every position of the snapshot by one and the same vector changes
    neither the result of [calculate_pressure] nor that of the loop
    computing the accelerations, a raised exception included. *)
Theorem accelerations_translation_invariant (cfg : Config) (d point : Vec2)
    (snapshot : list Vec2) (masses : list R) :
  calculate_pressure cfg (translate d point) (map (translate d) snapshot)
    masses
  = calculate_pressure cfg point snapshot masses
  /\ accelerate cfg (map (translate d) snapshot) masses
     = accelerate cfg snapshot masses.
Proof.
  split.
  - apply calculate_pressure_translate.
  - unfold accelerate. apply for_range_ext.
    intros i l _. rewrite acceleration_of_translate. reflexivity.
Qed.

(** ** Entries beyond the particle count *)

Lemma getitem_firstn {A : Type} (n : nat) (l : list A) (i : nat) :
  (i < n)%nat -> getitem (firstn n l) i = getitem l i.
Proof.
  intros Hi. unfold getitem. rewrite nth_error_firstn.
  apply Nat.ltb_lt in Hi. rewrite Hi. reflexivity.
Qed.

Section Prefix.

Variable cfg : Config.
Local Abbreviation N := (NUM_PARTICLES cfg).

Lemma predict_firstn (speeds positions : list Vec2) :
  predict cfg (firstn N speeds) (firstn N positions)
  = predict cfg speeds positions.
Proof.
  unfold predict. apply comprehension_ext.
  intros i Hi. apply in_range in Hi.
  rewrite !getitem_firstn by assumption. reflexivity.
Qed.

Lemma calculate_pressure_firstn (point : Vec2) (snapshot : list Vec2)
    (masses : list R) :
  calculate_pressure cfg point snapshot (firstn N masses)
  = calculate_pressure cfg point snapshot masses.
Proof.
  unfold calculate_pressure. apply for_range_ext.
  intros i s Hi. apply in_range in Hi.
  rewrite getitem_firstn by assumption. reflexivity.
Qed.

Lemma pressure_force_loop_firstn (i : nat) (snapshot : list Vec2)
    (masses : list R) (P : R) :
  pressure_force_loop cfg i snapshot (firstn N masses) P
  = pressure_force_loop cfg i snapshot masses P.
Proof.
  unfold pressure_force_loop. apply for_range_ext.
  intros j s Hj. apply in_range in Hj.
  rewrite getitem_firstn by assumption. reflexivity.
Qed.

Lemma accelerate_firstn (snapshot : list Vec2) (masses : list R) :
  accelerate cfg snapshot (firstn N masses) = accelerate cfg snapshot masses.
Proof.
  unfold accelerate. apply for_range_ext.
  intros i l _. unfold acceleration_of.
  destruct (getitem snapshot i) as [p | e]; simpl; [| reflexivity].
  rewrite calculate_pressure_firstn.
  destruct (calculate_pressure cfg p snapshot masses) as [P | e]; simpl;
    [| reflexivity].
  rewrite pressure_force_loop_firstn. reflexivity.
Qed.

Lemma integrate_firstn (speeds snapshot accelerations : list Vec2)
    (masses : list R) :
  integrate cfg (firstn N speeds) snapshot accelerations (firstn N masses)
  = integrate cfg speeds snapshot accelerations masses.
Proof.
  unfold integrate. apply for_range_ext.
  intros i out Hi. apply in_range in Hi.
  unfold integrate_one. rewrite !getitem_firstn by assumption.
  reflexivity.
Qed.

End Prefix.

(** X9.  [update] reads only the first [NUM_PARTICLES] entries of its
    three lists: cutting each list after that many entries changes
    nothing in what it returns or raises. *)
Theorem update_reads_prefix (cfg : Config) (speeds positions : list Vec2)
    (masses : list R) :
  update cfg (firstn (NUM_PARTICLES cfg) speeds)
    (firstn (NUM_PARTICLES cfg) positions)
    (firstn (NUM_PARTICLES cfg) masses)
  = update cfg speeds positions masses.
Proof.
  unfold update. rewrite predict_firstn.
  destruct (predict cfg speeds positions) as [snapshot | e]; simpl;
    [| reflexivity].
  rewrite accelerate_firstn.
  destruct (accelerate cfg snapshot masses) as [accs | e]; simpl;
    [| reflexivity].
  apply integrate_firstn.
Qed.

(** ** Two particles of equal mass *)

Section EqualPair.

Variable cfg : Config.
Hypothesis two_particles : NUM_PARTICLES cfg = 2%nat.
Hypothesis radius_pos : 0 < SMOOTHING_RADIUS cfg.

Variables (p q : Vec2) (m : R).
Hypothesis mass_pos : 0 < m.
Hypothesis distinct : p <> q.

Lemma pair_masses_pos (j : nat) :
  (j < NUM_PARTICLES cfg)%nat -> 0 < mass_at [m; m] j.
Proof.
  rewrite two_particles. intros Hj. unfold mass_at.
  destruct j as [| [| j]]; simpl; try assumption. lia.
Qed.

Lemma pair_apart (i : nat) :
  (i < NUM_PARTICLES cfg)%nat -> apart cfg [p; q] i.
Proof.
  rewrite two_particles. intros Hi j Hj Hne H.
  rewrite two_particles in Hj.
  apply calculate_distance_zero_iff in H. unfold vec_at in H.
  destruct i as [| [| i]]; destruct j as [| [| j]]; try lia; simpl in H;
    congruence.
Qed.

Lemma pair_accelerate :
  accelerate cfg [p; q] [m; m]
  = Ok [acceleration_spec cfg [p; q] [m; m] 0;
        acceleration_spec cfg [p; q] [m; m] 1].
Proof.
  rewrite accelerate_spec.
  - rewrite two_particles. reflexivity.
  - rewrite two_particles. apply Nat.le_refl.
  - rewrite two_particles. apply Nat.le_refl.
  - lra.
  - exact pair_apart.
  - intros i Hi. apply Rgt_not_eq. apply Rlt_gt.
    apply pressure_sum_pos; try assumption. exact pair_masses_pos.
Qed.

Lemma pair_accelerations_sum :
  fst (acceleration_spec cfg [p; q] [m; m] 0)
  + fst (acceleration_spec cfg [p; q] [m; m] 1) = 0
  /\ snd (acceleration_spec cfg [p; q] [m; m] 0)
     + snd (acceleration_spec cfg [p; q] [m; m] 1) = 2 * GRAVITY cfg.
Proof.
  assert (HP0 : 0 < pressure_sum cfg (vec_at [p; q] 0) [p; q] [m; m])
    by (apply pressure_sum_pos;
        [assumption | exact pair_masses_pos | rewrite two_particles; lia]).
  assert (Hd : calculate_distance p q <> 0)
    by (intros H; apply calculate_distance_zero_iff in H; contradiction).
  unfold acceleration_spec, force_sum, others, pairwise_term.
  unfold pressure_sum in *. rewrite two_particles in *.
  unfold vec_at, mass_at in *. simpl in *.
  rewrite !calculate_distance_self in *.
  rewrite (calculate_distance_sym q p).
  set (d := calculate_distance p q) in *.
  set (k0 := kernel cfg 0) in *. set (kd := kernel cfg d) in *.
  assert (HP1 : kd * m + (k0 * m + 0) <> 0) by lra.
  assert (HP0' : k0 * m + (kd * m + 0) <> 0) by lra.
  split; field; repeat split; first [assumption | lra].
Qed.

End EqualPair.

(** X10.  For two particles of equal positive mass at distinct predicted
    positions, the pressure accelerations [update] computes are opposite:
    the two accelerations add up to (0, 2G), twice the gravity alone. *)
Theorem equal_pair_accelerations_opposite (cfg : Config) (p q : Vec2)
    (m : R) :
  NUM_PARTICLES cfg = 2%nat ->
  0 < SMOOTHING_RADIUS cfg ->
  0 < m ->
  p <> q ->
  exists a0 a1,
    accelerate cfg [p; q] [m; m] = Ok [a0; a1]
    /\ fst a0 + fst a1 = 0
    /\ snd a0 + snd a1 = 2 * GRAVITY cfg.
Proof.
  intros HN Hh Hm Hpq.
  exists (acceleration_spec cfg [p; q] [m; m] 0),
         (acceleration_spec cfg [p; q] [m; m] 1).
  split.
  - apply pair_accelerate; assumption.
  - apply pair_accelerations_sum; assumption.
Qed.

Lemma origin_not_ten : ((0, 0) : Vec2) <> (10, 0).
Proof. intros H. injection H. intros. lra. Qed.

Lemma equal_pair_accelerations_opposite_witness :
  0 < SMOOTHING_RADIUS (with_particles_gravity 2 0) /\
  0 < 1 /\
  ((0, 0) : Vec2) <> (10, 0) /\
  exists a0 a1,
    accelerate (with_particles_gravity 2 0) [(0, 0); (10, 0)] [1; 1]
    = Ok [a0; a1]
    /\ fst a0 + fst a1 = 0
    /\ snd a0 + snd a1 = 2 * GRAVITY (with_particles_gravity 2 0).
Proof.
  split; [exact golden_radius | split; [exact Rlt_0_1 |
    split; [exact origin_not_ten |]]].
  exact (equal_pair_accelerations_opposite (with_particles_gravity 2 0)
           (0, 0) (10, 0) 1 eq_refl golden_radius Rlt_0_1 origin_not_ten).
Defined.

(** ** [smoothing_derivative] and the slope of [smoothing_function] *)

Lemma derivable_pt_lim_locally (f g : R -> R) (x l delta0 : R) :
  0 < delta0 ->
  (forall y, Rabs (y - x) < delta0 -> f y = g y) ->
  derivable_pt_lim g x l -> derivable_pt_lim f x l.
Proof.
  intros Hpos Hloc Hg eps Heps.
  destruct (Hg eps Heps) as [delta Hdelta].
  exists (mkposreal (Rmin delta0 delta)
            (Rmin_pos delta0 delta Hpos (cond_pos delta))).
  intros k Hk Hkd. simpl in Hkd.
  rewrite (Hloc (x + k)), (Hloc x).
  - apply Hdelta; [assumption |].
    apply Rlt_le_trans with (1 := Hkd). apply Rmin_r.
  - replace (x - x) with 0 by ring. rewrite Rabs_R0. assumption.
  - replace (x + k - x) with k by ring.
    apply Rlt_le_trans with (1 := Hkd). apply Rmin_l.
Qed.

Lemma cubic_slope (h d : R) :
  h <> 0 ->
  derivable_pt_lim (fun x => 2 / h * ((h - x) / h) ^ 3) d
    (-6 * (h - d) ^ 2 / h ^ 4).
Proof.
  intros Hh.
  pose proof (derivable_pt_lim_minus (fct_cte h) id d 0 1
                (derivable_pt_lim_const h d) (derivable_pt_lim_id d)) as H1.
  pose proof (derivable_pt_lim_scal (fct_cte h - id)%F (/ h) d _ H1) as H2.
  pose proof (derivable_pt_lim_comp _ (fun y => y ^ 3) d _ _ H2
                (derivable_pt_lim_pow _ 3)) as H3.
  pose proof (derivable_pt_lim_scal _ (2 / h) d _ H3) as H4.
  intros eps Heps.
  destruct (H4 eps Heps) as [delta Hdelta]. exists delta.
  intros k Hk Hkd. specialize (Hdelta k Hk Hkd).
  unfold mult_real_fct, comp, minus_fct, fct_cte, id in Hdelta.
  simpl in Hdelta. simpl.
  match goal with
  | H : Rabs ?a < eps |- Rabs ?b < eps => replace b with a; [exact H |]
  end.
  field. repeat split; assumption.
Qed.

Section Slope.

Variable cfg : Config.
Local Abbreviation h := (SMOOTHING_RADIUS cfg).
Hypothesis radius_pos : 0 < h.

Lemma kernel_slope_inside (d : R) :
  d < h -> derivable_pt_lim (kernel cfg) d (derivative cfg d).
Proof.
  intros Hd.
  apply derivable_pt_lim_locally
    with (g := fun x => 2 / h * ((h - x) / h) ^ 3) (delta0 := h - d).
  - lra.
  - intros y Hy. apply kernel_inside; [assumption |].
    apply Rabs_def2 in Hy. lra.
  - unfold derivative. apply cubic_slope. lra.
Qed.

Lemma kernel_slope_outside (d : R) :
  h < d -> derivable_pt_lim (kernel cfg) d 0.
Proof.
  intros Hd.
  apply derivable_pt_lim_locally with (g := fct_cte 0) (delta0 := d - h).
  - lra.
  - intros y Hy. unfold fct_cte. apply kernel_outside; [assumption |].
    apply Rabs_def2 in Hy. lra.
  - apply derivable_pt_lim_const.
Qed.

Lemma kernel_slope_at_radius : derivable_pt_lim (kernel cfg) h 0.
Proof.
  intros eps Heps.
  assert (Hh4 : 0 < h ^ 4) by (apply pow_lt; assumption).
  assert (Hd : 0 < Rmin 1 (eps * h ^ 4 / 2)).
  { apply Rmin_pos; [lra |].
    apply Rdiv_lt_0_compat; [| lra].
    apply Rmult_lt_0_compat; assumption. }
  exists (mkposreal _ Hd). intros k Hk Hkd. simpl in Hkd.
  assert (Hk1 : Rabs k < 1)
    by (apply Rlt_le_trans with (1 := Hkd); apply Rmin_l).
  assert (Hk2 : Rabs k < eps * h ^ 4 / 2)
    by (apply Rlt_le_trans with (1 := Hkd); apply Rmin_r).
  rewrite (kernel_outside cfg radius_pos h) by lra.
  destruct (Rle_lt_dec 0 k) as [Hpos | Hneg].
  - rewrite (kernel_outside cfg radius_pos (h + k)) by lra.
    replace ((0 - 0) / k - 0) with 0 by (field; assumption).
    rewrite Rabs_R0. assumption.
  - rewrite (kernel_inside cfg radius_pos (h + k)) by lra.
    replace ((2 / h * ((h - (h + k)) / h) ^ 3 - 0) / k - 0)
      with (- (2 / h ^ 4 * (k * k)))
      by (field; split; lra).
    rewrite Rabs_Ropp.
    assert (HC : 0 < 2 / h ^ 4) by (apply Rdiv_lt_0_compat; lra).
    rewrite Rabs_pos_eq
      by (apply Rmult_le_pos; [lra | apply Rle_0_sqr]).
    rewrite (Rabs_left k Hneg) in Hk1, Hk2.
    assert (Hkk : k * k < - k) by nra.
    apply Rlt_trans with (2 / h ^ 4 * - k).
    + apply Rmult_lt_compat_l; assumption.
    + apply Rlt_le_trans with (2 / h ^ 4 * (eps * h ^ 4 / 2)).
      * apply Rmult_lt_compat_l; assumption.
      * right. field. lra.
Qed.

End Slope.

(** X11.  With a positive smoothing radius [h], the value
    [smoothing_derivative] returns at a distance [d <= h] is the slope of
    [smoothing_function] at [d]; at a distance [d > h] the slope of
    [smoothing_function] is 0. *)
Theorem smoothing_derivative_is_slope (cfg : Config) (d : R) :
  0 < SMOOTHING_RADIUS cfg ->
  (d <= SMOOTHING_RADIUS cfg ->
   derivable_pt_lim (fun x => value 0 (smoothing_function cfg x)) d
     (value 0 (smoothing_derivative cfg d)))
  /\ (SMOOTHING_RADIUS cfg < d ->
      derivable_pt_lim (fun x => value 0 (smoothing_function cfg x)) d 0).
Proof.
  intros Hh.
  assert (Hnz : SMOOTHING_RADIUS cfg <> 0) by lra.
  assert (Hfun : forall l,
            derivable_pt_lim (kernel cfg) d l ->
            derivable_pt_lim (fun x => value 0 (smoothing_function cfg x))
              d l).
  { intros l Hl.
    apply derivable_pt_lim_locally with (g := kernel cfg) (delta0 := 1).
    - lra.
    - intros y _. rewrite smoothing_function_kernel by assumption.
      reflexivity.
    - assumption. }
  split.
  - intros Hd. apply Hfun.
    rewrite smoothing_derivative_eq by assumption. simpl value.
    destruct Hd as [Hlt | ->].
    + apply kernel_slope_inside; assumption.
    + replace (derivative cfg (SMOOTHING_RADIUS cfg)) with 0
        by (unfold derivative; field; assumption).
      apply kernel_slope_at_radius. assumption.
  - intros Hd. apply Hfun. apply kernel_slope_outside; assumption.
Qed.

Lemma smoothing_derivative_is_slope_witness :
  0 < SMOOTHING_RADIUS source_config /\
  10 <= SMOOTHING_RADIUS source_config /\
  derivable_pt_lim (fun x => value 0 (smoothing_function source_config x)) 10
    (value 0 (smoothing_derivative source_config 10)).
Proof.
  assert (Hh : 0 < SMOOTHING_RADIUS source_config) by (simpl; lra).
  assert (Hd : 10 <= SMOOTHING_RADIUS source_config) by (simpl; lra).
  split; [exact Hh | split; [exact Hd |]].
  exact (proj1 (smoothing_derivative_is_slope source_config 10 Hh) Hd).
Defined.

(** * The set-up of [main] *)

Lemma py_round_near (x : R) :
  IZR (py_round x) - 1 / 2 <= x <= IZR (py_round x) + 1 / 2.
Proof.
  unfold py_round.
  destruct (base_Int_part x) as [Hlow Hhigh].
  destruct (Rlt_dec (x - IZR (Int_part x)) (1 / 2)) as [Hlt | Hge].
  - lra.
  - destruct (Rlt_dec (1 / 2) (x - IZR (Int_part x))) as [Hgt | Hle].
    + rewrite plus_IZR. lra.
    + destruct (Z.even (Int_part x)).
      * lra.
      * rewrite plus_IZR. lra.
Qed.

Lemma sqrt_count_ge_1 (n : nat) : (1 <= n)%nat -> 1 <= sqrt (INR n).
Proof.
  intros Hn. rewrite <- sqrt_1. apply sqrt_le_1_alt.
  replace 1 with (INR 1) by reflexivity. apply le_INR. assumption.
Qed.

Lemma grid_size_pos (cfg : Config) :
  (1 <= NUM_PARTICLES cfg)%nat -> (1 <= GRID_SIZE cfg)%Z.
Proof.
  intros Hn. unfold GRID_SIZE.
  pose proof (py_round_near (sqrt (INR (NUM_PARTICLES cfg)))) as Hnear.
  pose proof (sqrt_count_ge_1 _ Hn) as Hsqrt.
  assert (H0 : IZR 0 < IZR (py_round (sqrt (INR (NUM_PARTICLES cfg)))))
    by lra.
  apply lt_IZR in H0. lia.
Qed.

(** The particles fill at most one row more than the grid has columns. *)
Lemma grid_rows (cfg : Config) :
  (Z.of_nat (NUM_PARTICLES cfg)
   <= GRID_SIZE cfg * GRID_SIZE cfg + GRID_SIZE cfg)%Z.
Proof.
  unfold GRID_SIZE.
  set (x := sqrt (INR (NUM_PARTICLES cfg))).
  set (g := py_round x).
  pose proof (py_round_near x) as Hnear. fold g in Hnear.
  assert (Hx : 0 <= x) by apply sqrt_pos.
  assert (Hxx : x * x = INR (NUM_PARTICLES cfg))
    by (apply sqrt_sqrt; apply pos_INR).
  assert (Hsq : x * x <= (IZR g + 1 / 2) * (IZR g + 1 / 2)) by nra.
  rewrite Hxx, INR_IZR_INZ in Hsq.
  assert (Hlt : IZR (Z.of_nat (NUM_PARTICLES cfg)) < IZR (g * g + g + 1)).
  { rewrite !plus_IZR, mult_IZR. lra. }
  apply lt_IZR in Hlt. lia.
Qed.

Lemma initial_positions_eq (cfg : Config) :
  initial_positions cfg
  = Ok (map (grid_point cfg (GRID_SIZE cfg)) (range (NUM_PARTICLES cfg))).
Proof.
  unfold initial_positions. apply comprehension_map.
  intros i Hi. apply in_range in Hi.
  assert (Hg : (1 <= GRID_SIZE cfg)%Z) by (apply grid_size_pos; lia).
  assert (Hz : (GRID_SIZE cfg =? 0)%Z = false) by (apply Z.eqb_neq; lia).
  assert (Hr : IZR (GRID_SIZE cfg) <> 0)
    by (intros H; apply eq_IZR in H; lia).
  unfold py_mod, py_floordiv. rewrite Hz. simpl bind.
  rewrite !truediv_ok by assumption. reflexivity.
Qed.

Section Grid.

Variable cfg : Config.
Variable g : Z.
Hypothesis grid_pos : (1 <= g)%Z.

Lemma grid_scale_nonzero (extent : R) :
  extent <> 0 -> extent * / IZR g <> 0.
Proof.
  intros He. apply Rmult_integral_contrapositive_currified.
  - assumption.
  - apply Rinv_neq_0_compat. intros H. apply eq_IZR in H. lia.
Qed.

Lemma grid_point_injective (i j : nat) :
  WIDTH cfg <> 0 -> HEIGHT cfg <> 0 ->
  grid_point cfg g i = grid_point cfg g j -> i = j.
Proof.
  intros Hw Hh Heq. unfold grid_point, GRID_AREA, Rdiv in Heq.
  injection Heq as Hx Hy.
  assert (Hcol : IZR (Z.of_nat i mod g) = IZR (Z.of_nat j mod g)).
  { apply Rmult_eq_reg_r with (WIDTH cfg * / IZR g);
      [lra | apply grid_scale_nonzero; assumption]. }
  assert (Hrow : IZR (Z.of_nat i / g) = IZR (Z.of_nat j / g)).
  { apply Rmult_eq_reg_r with (HEIGHT cfg * / IZR g);
      [lra | apply grid_scale_nonzero; assumption]. }
  apply eq_IZR in Hcol. apply eq_IZR in Hrow.
  apply Nat2Z.inj.
  rewrite (Z.div_mod (Z.of_nat i) g) by lia.
  rewrite (Z.div_mod (Z.of_nat j) g) by lia.
  congruence.
Qed.

Lemma grid_column_range (i : nat) :
  0 <= IZR (Z.of_nat i mod g) * / IZR g < 1.
Proof.
  assert (Hg : 0 < IZR g) by (apply IZR_lt; lia).
  pose proof (Z.mod_pos_bound (Z.of_nat i) g ltac:(lia)) as [Hlo Hhi].
  apply IZR_le in Hlo. apply IZR_lt in Hhi.
  assert (Hinv : 0 < / IZR g) by (apply Rinv_0_lt_compat; assumption).
  split.
  - apply Rmult_le_pos; lra.
  - apply Rmult_lt_reg_r with (IZR g); [assumption |].
    rewrite Rmult_assoc, Rinv_l by lra. lra.
Qed.

Lemma grid_row_range (i : nat) :
  (Z.of_nat i < g * g + g)%Z ->
  0 <= IZR (Z.of_nat i / g) * / IZR g <= 1.
Proof.
  intros Hi.
  assert (Hg : 0 < IZR g) by (apply IZR_lt; lia).
  assert (Hlo : (0 <= Z.of_nat i / g)%Z) by (apply Z.div_pos; lia).
  assert (Hhi : (Z.of_nat i / g < g + 1)%Z)
    by (apply Z.div_lt_upper_bound; lia).
  assert (Hhi' : (Z.of_nat i / g <= g)%Z) by lia.
  apply IZR_le in Hlo. apply IZR_le in Hhi'.
  assert (Hinv : 0 < / IZR g) by (apply Rinv_0_lt_compat; assumption).
  split.
  - apply Rmult_le_pos; lra.
  - apply Rmult_le_reg_r with (IZR g); [assumption |].
    rewrite Rmult_assoc, Rinv_l by lra. lra.
Qed.

End Grid.

Lemma vec_at_initial_speeds (cfg : Config) (i : nat) :
  (i < NUM_PARTICLES cfg)%nat -> vec_at (initial_speeds cfg) i = (0, 0).
Proof.
  intros Hi. unfold vec_at, initial_speeds.
  exact (nth_map_range (fun _ : nat => ((0, 0) : Vec2)) _ i (0, 0) Hi).
Qed.

Lemma mass_at_initial_masses (cfg : Config) (i : nat) :
  (i < NUM_PARTICLES cfg)%nat -> mass_at (initial_masses cfg) i = 1.
Proof.
  intros Hi. unfold mass_at, initial_masses.
  exact (nth_map_range (fun _ : nat => 1) _ i 0 Hi).
Qed.

Lemma grid_points_distinct (cfg : Config) (i j : nat) :
  WIDTH cfg <> 0 -> HEIGHT cfg <> 0 ->
  (i < NUM_PARTICLES cfg)%nat -> (j < NUM_PARTICLES cfg)%nat -> i <> j ->
  vec_at (map (grid_point cfg (GRID_SIZE cfg)) (range (NUM_PARTICLES cfg))) i
  <> vec_at (map (grid_point cfg (GRID_SIZE cfg)) (range (NUM_PARTICLES cfg)))
       j.
Proof.
  intros Hw Hh Hi Hj Hne Heq. unfold vec_at in Heq.
  rewrite !nth_map_range in Heq by assumption.
  apply Hne.
  apply (grid_point_injective cfg (GRID_SIZE cfg)); try assumption.
  apply grid_size_pos. lia.
Qed.

(** X12.  The set-up of [main] never raises and never puts two particles
    on the same point, for any particle count, when the width and the
    height are not 0; with a positive smoothing radius, its first call of
    [update] therefore returns a state. *)
Theorem main_first_frame_returns (cfg : Config) :
  0 < SMOOTHING_RADIUS cfg ->
  WIDTH cfg <> 0 ->
  HEIGHT cfg <> 0 ->
  exists positions,
    initial_positions cfg = Ok positions
    /\ (forall i j, (i < NUM_PARTICLES cfg)%nat ->
          (j < NUM_PARTICLES cfg)%nat -> i <> j ->
          vec_at positions i <> vec_at positions j)
    /\ update cfg (initial_speeds cfg) positions (initial_masses cfg)
       = Ok (next_state cfg (initial_speeds cfg) positions
               (initial_masses cfg)).
Proof.
  intros Hh Hw Hht.
  exists (map (grid_point cfg (GRID_SIZE cfg)) (range (NUM_PARTICLES cfg))).
  split; [apply initial_positions_eq |].
  split; [intros i j; apply grid_points_distinct; assumption |].
  apply update_eq.
  - unfold initial_speeds. rewrite length_map_range. apply Nat.le_refl.
  - rewrite length_map_range. apply Nat.le_refl.
  - unfold initial_masses. rewrite length_map_range. apply Nat.le_refl.
  - assumption.
  - intros j Hj. rewrite mass_at_initial_masses by assumption. lra.
  - intros i Hi j Hj Hne Hd.
    apply calculate_distance_zero_iff in Hd.
    rewrite !vec_at_predicted in Hd by assumption.
    rewrite !vec_at_initial_speeds in Hd by assumption.
    simpl in Hd. injection Hd as Hx Hy.
    apply (grid_points_distinct cfg i j Hw Hht Hi Hj);
      [congruence |].
    destruct (vec_at _ i) as [xi yi], (vec_at _ j) as [xj yj].
    simpl in Hx, Hy. f_equal; lra.
Qed.

Lemma main_first_frame_returns_witness :
  0 < SMOOTHING_RADIUS source_config /\
  WIDTH source_config <> 0 /\
  HEIGHT source_config <> 0 /\
  exists positions,
    initial_positions source_config = Ok positions
    /\ update source_config (initial_speeds source_config) positions
         (initial_masses source_config)
       = Ok (next_state source_config (initial_speeds source_config)
               positions (initial_masses source_config)).
Proof.
  assert (Hh : 0 < SMOOTHING_RADIUS source_config) by (simpl; lra).
  assert (Hw : WIDTH source_config <> 0) by (simpl; lra).
  assert (Hht : HEIGHT source_config <> 0) by (simpl; lra).
  split; [exact Hh | split; [exact Hw | split; [exact Hht |]]].
  destruct (main_first_frame_returns source_config Hh Hw Hht)
    as [positions [Hpos [_ Hup]]].
  exists positions. split; [exact Hpos | exact Hup].
Defined.

(** X13.  With a positive width and height, every position the set-up of
    [main] produces lies in the middle of the window: its abscissa in
    [WIDTH/4, 3*WIDTH/4) and its ordinate in [HEIGHT/4, 3*HEIGHT/4],
    whatever the particle count. *)
Theorem main_grid_in_middle (cfg : Config) :
  0 < WIDTH cfg ->
  0 < HEIGHT cfg ->
  exists positions,
    initial_positions cfg = Ok positions
    /\ length positions = NUM_PARTICLES cfg
    /\ forall i, (i < NUM_PARTICLES cfg)%nat ->
         WIDTH cfg / 4 <= fst (vec_at positions i) < 3 * WIDTH cfg / 4
         /\ HEIGHT cfg / 4 <= snd (vec_at positions i)
            <= 3 * HEIGHT cfg / 4.
Proof.
  intros Hw Hh.
  exists (map (grid_point cfg (GRID_SIZE cfg)) (range (NUM_PARTICLES cfg))).
  split; [apply initial_positions_eq |].
  split; [apply length_map_range |].
  intros i Hi. unfold vec_at. rewrite nth_map_range by assumption.
  assert (Hg : (1 <= GRID_SIZE cfg)%Z) by (apply grid_size_pos; lia).
  pose proof (grid_column_range (GRID_SIZE cfg) Hg i) as Hcol.
  assert (Hrows : (Z.of_nat i < GRID_SIZE cfg * GRID_SIZE cfg
                                + GRID_SIZE cfg)%Z)
    by (pose proof (grid_rows cfg); lia).
  pose proof (grid_row_range (GRID_SIZE cfg) Hg i Hrows) as Hrow.
  unfold grid_point, GRID_AREA, Rdiv. simpl fst. simpl snd.
  set (c := IZR (Z.of_nat i mod GRID_SIZE cfg) * / IZR (GRID_SIZE cfg)) in *.
  set (r := IZR (Z.of_nat i / GRID_SIZE cfg) * / IZR (GRID_SIZE cfg)) in *.
  replace (IZR (Z.of_nat i mod GRID_SIZE cfg) * WIDTH cfg
           * / IZR (GRID_SIZE cfg))
    with (c * WIDTH cfg) by (unfold c; ring).
  replace (IZR (Z.of_nat i / GRID_SIZE cfg) * HEIGHT cfg
           * / IZR (GRID_SIZE cfg))
    with (r * HEIGHT cfg) by (unfold r; ring).
  split; nra.
Qed.

Lemma main_grid_in_middle_witness :
  0 < WIDTH source_config /\
  0 < HEIGHT source_config /\
  exists positions,
    initial_positions source_config = Ok positions
    /\ length positions = NUM_PARTICLES source_config.
Proof.
  assert (Hw : 0 < WIDTH source_config) by (simpl; lra).
  assert (Hh : 0 < HEIGHT source_config) by (simpl; lra).
  split; [exact Hw | split; [exact Hh |]].
  destruct (main_grid_in_middle source_config Hw Hh)
    as [positions [Hpos [Hlen _]]].
  exists positions. split; [exact Hpos | exact Hlen].
Defined.

(** * Bounds on the pressure, and a zero smoothing radius *)

Lemma sum_over_le (idx : list nat) (f g : nat -> R) :
  (forall i, In i idx -> f i <= g i) -> sum_over idx f <= sum_over idx g.
Proof.
  induction idx as [| i rest IH]; intros Hfg; simpl.
  - lra.
  - assert (f i <= g i) by (apply Hfg; left; reflexivity).
    assert (sum_over rest f <= sum_over rest g)
      by (apply IH; intros; apply Hfg; right; assumption).
    lra.
Qed.

(** X14.  With a positive smoothing radius [h] and masses that are not
    negative, the pressure [calculate_pressure] returns at any point lies
    between 0 and [(2 / h)] times the sum of the masses, the value it
    takes when every particle sits on the point. *)
Theorem pressure_bounds (cfg : Config) (point : Vec2)
    (positions : list Vec2) (masses : list R) :
  0 < SMOOTHING_RADIUS cfg ->
  (NUM_PARTICLES cfg <= length positions)%nat ->
  (NUM_PARTICLES cfg <= length masses)%nat ->
  (forall j, (j < NUM_PARTICLES cfg)%nat -> 0 <= mass_at masses j) ->
  exists P,
    calculate_pressure cfg point positions masses = Ok P
    /\ 0 <= P
    /\ P <= 2 / SMOOTHING_RADIUS cfg
            * sum_over (range (NUM_PARTICLES cfg)) (mass_at masses).
Proof.
  intros Hh Hp Hm Hpos.
  exists (pressure_sum cfg point positions masses).
  split; [apply calculate_pressure_sum; assumption || lra |].
  unfold pressure_sum. split.
  - apply sum_over_nonneg. intros i Hi. apply in_range in Hi.
    apply Rmult_le_pos; [apply kernel_nonneg; assumption | auto].
  - rewrite <- sum_over_scale. apply sum_over_le.
    intros i Hi. apply in_range in Hi.
    apply Rmult_le_compat_r; [auto |].
    rewrite <- (kernel_at_zero cfg Hh).
    apply kernel_le_at_zero; [assumption |].
    apply calculate_distance_nonneg.
Qed.

Lemma unit_masses_nonneg (j : nat) :
  (j < NUM_PARTICLES (with_particles_gravity 2 0))%nat ->
  0 <= mass_at golden_masses j.
Proof. intros Hj. left. apply unit_masses_pos. exact Hj. Qed.

Lemma pressure_bounds_witness :
  0 < SMOOTHING_RADIUS (with_particles_gravity 2 0) /\
  exists P,
    calculate_pressure (with_particles_gravity 2 0) (3, 4) golden_positions
      golden_masses = Ok P
    /\ 0 <= P
    /\ P <= 2 / SMOOTHING_RADIUS (with_particles_gravity 2 0)
            * sum_over (range 2) (mass_at golden_masses).
Proof.
  split; [exact golden_radius |].
  exact (pressure_bounds (with_particles_gravity 2 0) (3, 4)
           golden_positions golden_masses golden_radius
           (Nat.le_refl 2) (Nat.le_refl 2) unit_masses_nonneg).
Defined.

(** X15.  With a smoothing radius of 0 and at least one particle,
    [update] raises [ZeroDivisionError] on lists that are long enough:
    the kernel divides by the radius when the first pressure is
    estimated. *)
Theorem zero_radius_raises (cfg : Config) (speeds positions : list Vec2)
    (masses : list R) :
  SMOOTHING_RADIUS cfg = 0 ->
  (1 <= NUM_PARTICLES cfg)%nat ->
  (NUM_PARTICLES cfg <= length speeds)%nat ->
  (NUM_PARTICLES cfg <= length positions)%nat ->
  (forall d, smoothing_function cfg d = Raise ZeroDivisionError)
  /\ (forall d, smoothing_derivative cfg d = Raise ZeroDivisionError)
  /\ update cfg speeds positions masses = Raise ZeroDivisionError.
Proof.
  intros Hh Hn Hs Hp.
  split; [intros d; apply smoothing_function_zero_radius; assumption |].
  split; [intros d; apply smoothing_derivative_zero_radius; assumption |].
  unfold update. rewrite predict_eq by assumption. simpl bind.
  unfold accelerate. rewrite (range_cons (NUM_PARTICLES cfg)) by lia.
  simpl for_range. unfold acceleration_of.
  rewrite (getitem_nth _ 0 (0, 0)) by (rewrite length_predicted; lia).
  simpl bind. unfold calculate_pressure.
  rewrite (range_cons (NUM_PARTICLES cfg)) by lia.
  simpl for_range.
  rewrite (getitem_nth _ 0 (0, 0)) by (rewrite length_predicted; lia).
  simpl bind.
  rewrite smoothing_function_zero_radius by assumption. reflexivity.
Qed.

Lemma zero_radius_raises_witness :
  SMOOTHING_RADIUS
    {| NUM_PARTICLES := 1; GRAVITY := 0; PARTICLE_SIZE := 5;
       SMOOTHING_RADIUS := 0; PRESSURE_FORCE_MULT := 1 / 10;
       TARGET_PRESSURE := 1 / 10; WALL_MULT := 7 / 10;
       WIDTH := 400; HEIGHT := 400 |} = 0 /\
  update
    {| NUM_PARTICLES := 1; GRAVITY := 0; PARTICLE_SIZE := 5;
       SMOOTHING_RADIUS := 0; PRESSURE_FORCE_MULT := 1 / 10;
       TARGET_PRESSURE := 1 / 10; WALL_MULT := 7 / 10;
       WIDTH := 400; HEIGHT := 400 |}
    [(0, 0)] [(200, 200)] [1] = Raise ZeroDivisionError.
Proof.
  split; [reflexivity |].
  exact (proj2 (proj2
    (zero_radius_raises
       {| NUM_PARTICLES := 1; GRAVITY := 0; PARTICLE_SIZE := 5;
          SMOOTHING_RADIUS := 0; PRESSURE_FORCE_MULT := 1 / 10;
          TARGET_PRESSURE := 1 / 10; WALL_MULT := 7 / 10;
          WIDTH := 400; HEIGHT := 400 |}
       [(0, 0)] [(200, 200)] [1] eq_refl (Nat.le_refl 1) (Nat.le_refl 1)
       (Nat.le_refl 1)))).
Defined.

(** * Rounding *)

(** C10 as stated fails on floats: with the smoothing radius 30 and a
    single particle of mass 5e-324, which is positive, the term
    [kernel(0) * mass] rounds to 0.0, the pressure estimated at the
    particle is 0.0, and the division of the force by it at line 103
    raises [ZeroDivisionError]. *)
Lemma smallest_mass_pressure_zero :
  PrimFloat.ltb 0 (Binary64.SMOOTHING_RADIUS Binary64.one_particle_config)
    = true
  /\ PrimFloat.ltb 0 Binary64.smallest_mass = true
  /\ Binary64.predict Binary64.one_particle_config
       [(0%float, 0%float)] [(200%float, 200%float)]
     = Ok [(200%float, 200%float)]
  /\ Binary64.calculate_pressure Binary64.one_particle_config
       (200%float, 200%float) [(200%float, 200%float)]
       [Binary64.smallest_mass]
     = Ok 0%float
  /\ Binary64.accelerate Binary64.one_particle_config
       [(200%float, 200%float)] [Binary64.smallest_mass]
     = Raise ZeroDivisionError.
Proof.
  repeat split; vm_compute; reflexivity.
Qed.
